(** * Stacker: bounding-box stacking kernel (stacker.py)

    A shallow embedding of the pure geometry kernel of [stacker.py]:
    [translate_bounds], [stack_above], [is_below], the two [argsort_*]
    orderings, [get_base] and the batch procedure [drop_down]; and of the
    part of [stacker_addon.py] that uses it: [get_bounds] and the [execute]
    methods of the two operators, over an abstract type of scene objects.

    Numeric model.  The source works on numpy arrays of IEEE 754 binary64
    scalars ([float64]: the boxes the add-on supplies; the tests use whole
    numbers, which [float64] holds exactly).  Two readings of the scalars
    are used.  Where a statement only compares scalars, copies them or
    replays one operation of the code, so that rounding does not bear on it,
    the scalars are exact rationals [Q], with numeric equality [Qeq]
    (written [==]) lifted componentwise to arrays, and an explicit
    non-finite result type ([npfloat]) for the true division of
    [argsort_by_area].  Where a statement depends on rounding or overflow
    (where a translated box lands, translating twice, the area keys), the
    functions are modelled on binary64 itself, Rocq's primitive floats, in
    the module [F64].  Arrays of integers are not modelled.

    Array model.  A [(3,)] array is an [arr3] of scalars, a [(3, 2)] array
    is an [arr3] of pairs [(min, max)], a [(N, 3, 2)] array is a list of
    those.  An axis is one of the three indices 0, 1, 2. *)

From Stdlib Require Import QArith Lqa Floats.
From stdpp Require Import list sorting.

#[local] Set Warnings "-inexact-float".

(** ** Arrays of fixed shape *)

(** The axis selector: index 0, 1 or 2. *)
Inductive axis : Type := Ax0 | Ax1 | Ax2.

Record arr3 (A : Type) : Type := Arr3 { a0 : A; a1 : A; a2 : A }.
Arguments Arr3 {A} _ _ _.
Arguments a0 {A} _.
Arguments a1 {A} _.
Arguments a2 {A} _.

(** [a[ax]] *)
Definition get {A} (ax : axis) (a : arr3 A) : A :=
  match ax with Ax0 => a0 a | Ax1 => a1 a | Ax2 => a2 a end.

(** [a[ax] = x] *)
Definition set {A} (ax : axis) (x : A) (a : arr3 A) : arr3 A :=
  match ax with
  | Ax0 => Arr3 x (a1 a) (a2 a)
  | Ax1 => Arr3 (a0 a) x (a2 a)
  | Ax2 => Arr3 (a0 a) (a1 a) x
  end.

Definition map3 {A B} (f : A -> B) (a : arr3 A) : arr3 B :=
  Arr3 (f (a0 a)) (f (a1 a)) (f (a2 a)).

Definition zip3 {A B C} (f : A -> B -> C) (a : arr3 A) (b : arr3 B) : arr3 C :=
  Arr3 (f (a0 a) (a0 b)) (f (a1 a) (a1 b)) (f (a2 a) (a2 b)).

(** Python's [all] over a boolean array. *)
Definition all3 (a : arr3 bool) : bool := a0 a && a1 a && a2 a.

(** A translation vector, shape [(3,)]. *)
Definition vec : Type := arr3 Q.
(** One bounding box, shape [(3, 2)]: per axis the pair (min, max). *)
Definition bounds : Type := arr3 (Q * Q).

Definition lo (p : Q * Q) : Q := fst p.
Definition hi (p : Q * Q) : Q := snd p.

(** [b[:, 0]] and [b[:, 1]] *)
Definition col0 (b : bounds) : vec := map3 lo b.
Definition col1 (b : bounds) : vec := map3 hi b.

Definition vzero : vec := Arr3 0%Q 0%Q 0%Q.
Definition vadd (u v : vec) : vec := zip3 Qplus u v.
Definition vsub (u v : vec) : vec := zip3 Qminus u v.

(** Numeric equality of arrays, componentwise. *)
Definition veq (u v : vec) : Prop :=
  (a0 u == a0 v /\ a1 u == a1 v /\ a2 u == a2 v)%Q.

Definition peq (p q : Q * Q) : Prop := (lo p == lo q /\ hi p == hi q)%Q.

Definition beq (b c : bounds) : Prop :=
  peq (a0 b) (a0 c) /\ peq (a1 b) (a1 c) /\ peq (a2 b) (a2 c).

(** The box invariant of the data model: min <= max on every axis. *)
Definition valid_bounds (b : bounds) : Prop :=
  (lo (a0 b) <= hi (a0 b) /\ lo (a1 b) <= hi (a1 b) /\ lo (a2 b) <= hi (a2 b))%Q.

(** Comparisons of scalars as booleans. *)
Definition Qltb (x y : Q) : bool := negb (Qle_bool y x).
Definition Qgtb (x y : Q) : bool := Qltb y x.
Definition Qgeb (x y : Q) : bool := Qle_bool y x.

(** ** Pairwise geometry *)

(** [np.mean(b, axis=-1)]: per axis, the sum of the two entries over 2. *)
Definition np_mean (b : bounds) : vec := map3 (fun p => (lo p + hi p) / 2)%Q b.

(** [np.tile(delta, (2, 1)).T]: shape [(3, 2)], row [k] is [delta[k]] twice. *)
Definition np_tile_T (delta : vec) : bounds := map3 (fun d => (d, d)) delta.

(** [translate_bounds]: [bounds + np.tile(delta, (2, 1)).T], on exact
    scalars; [F64.translate_bounds] is the function on [float64]. *)
Definition translate_bounds (b : bounds) (delta : vec) : bounds :=
  zip3 (fun p q => (lo p + lo q, hi p + hi q)%Q) b (np_tile_T delta).

(** [stack_above(base_bounds, incoming_bounds, axis, padding, centering)], on
    exact scalars; [F64.stack_above] is the function on [float64]. *)
Definition stack_above (base_bounds incoming_bounds : bounds) (ax : axis)
    (padding : Q) (centering : bool) : vec :=
  let source := if centering then np_mean incoming_bounds
                else col0 incoming_bounds in
  let target := if centering then np_mean base_bounds else source in
  let source := set ax (lo (get ax incoming_bounds)) source in
  let target := set ax (hi (get ax base_bounds)) target in
  let target := set ax (get ax target + padding)%Q target in
  vsub target source.

(** [is_below(bounds_a, bounds_b, axis)] *)
Definition is_below (bounds_a bounds_b : bounds) (ax : axis) : bool :=
  let collision :=
    zip3 andb (zip3 Qltb (col0 bounds_b) (col1 bounds_a))
              (zip3 Qgtb (col1 bounds_b) (col0 bounds_a)) in
  let collision :=
    zip3 orb collision
         (zip3 andb (zip3 Qgtb (col1 bounds_b) (col0 bounds_a))
                    (zip3 Qltb (col0 bounds_b) (col1 bounds_a))) in
  let collision :=
    set ax (Qgeb (hi (get ax bounds_b)) (lo (get ax bounds_a))) collision in
  all3 collision.

(** Integer literals of the tests, as boxes and vectors. *)
Definition box (x0 x1 y0 y1 z0 z1 : Z) : bounds :=
  Arr3 (inject_Z x0, inject_Z x1) (inject_Z y0, inject_Z y1)
       (inject_Z z0, inject_Z z1).
Definition vecZ (x y z : Z) : vec := Arr3 (inject_Z x) (inject_Z y) (inject_Z z).

(** The closed-interval reading of "overlap or touch" (used to state the
    horizontal test the way the specification words it). *)
Definition closed_overlap (p q : Q * Q) : Prop :=
  (lo p <= hi q /\ lo q <= hi p)%Q.

(** ** Non-finite scalars and [np.argsort] *)

(** The result of a true division of two finite scalars: a finite number, an
    infinity, or not-a-number. *)
Inductive npfloat : Type := Fin (q : Q) | PInf | NInf | NaN.

(** [x / y] on arrays: division by zero does not raise, it yields an infinity
    or, for [0 / 0], NaN. *)
Definition np_true_divide (x y : Q) : npfloat :=
  if Qeq_bool y 0 then
    if Qeq_bool x 0 then NaN else if Qltb 0 x then PInf else NInf
  else Fin (x / y).

(** The comparison [a <= b] of two scalars: false as soon as one is NaN. *)
Definition ieee_le (a b : npfloat) : bool :=
  match a, b with
  | NaN, _ | _, NaN => false
  | NInf, _ => true
  | _, NInf => false
  | _, PInf => true
  | PInf, _ => false
  | Fin x, Fin y => Qle_bool x y
  end.

(** The order numpy sorts by: the numeric order, with NaN after everything. *)
Definition np_lt (a b : npfloat) : bool :=
  match a, b with
  | NaN, _ => false
  | _, NaN => true
  | _, NInf => false
  | NInf, _ => true
  | PInf, _ => false
  | _, PInf => true
  | Fin x, Fin y => Qltb x y
  end.

Definition np_le (a b : npfloat) : Prop := np_lt b a = false.

(** Fancy indexing [a[idxs]]: fails when an index is out of range. *)
Definition np_take {A} (a : list A) (idxs : list nat) : option (list A) :=
  mapM (fun i => a !! i) idxs.

Definition take_keys (keys : list npfloat) (idxs : list nat) : list npfloat :=
  map (fun i => nth i keys NaN) idxs.

(** What [np.argsort(keys)] promises with its default [kind]: the result is a
    permutation of [0 .. len(keys)-1] that puts the keys in sorted order.  The
    default kind is not a stable sort, so nothing is promised about ties. *)
Definition is_argsort (keys : list npfloat) (idxs : list nat) : Prop :=
  idxs ≡ₚ seq 0 (length keys) /\ StronglySorted np_le (take_keys keys idxs).

(** A decision procedure for that promise. *)
Fixpoint sortedb (l : list npfloat) : bool :=
  match l with
  | [] => true
  | x :: l' =>
      match l' with
      | [] => true
      | y :: _ => negb (np_lt y x) && sortedb l'
      end
  end.

Definition argsort_okb (keys : list npfloat) (idxs : list nat) : bool :=
  (length idxs =? length keys)%nat
  && forallb (fun i => existsb (Nat.eqb i) idxs) (seq 0 (length keys))
  && sortedb (take_keys keys idxs).

(** Two sorting procedures, to run examples with.  [np.argsort] itself is a
    parameter of the development; which of the sorting permutations it
    returns on equal keys depends on the numpy build and is left open.

    The first is a quicksort over the array of indices: the pivot is the
    median of the first, the middle and the last key, the range is
    partitioned around it by two scanning positions that swap out-of-place
    indices, and a range of at most 17 indices is finished by insertion
    sort.  Positions are indices into the array [a] of indices.  Where a
    result of this procedure is used below, it is checked against the
    promise with [argsort_okb]. *)
Section Quicksort.
Variable keys : list npfloat.

(** the key of the index stored at position [p] *)
Definition key_at (a : list nat) (p : nat) : npfloat :=
  nth (nth p a 0%nat) keys NaN.

Definition swap (a : list nat) (p q : nat) : list nat :=
  <[p := nth q a 0%nat]> (<[q := nth p a 0%nat]> a).

(** swap the indices at [p] and [q] when the key at [p] is the smaller *)
Definition swap_if_less (a : list nat) (p q : nat) : list nat :=
  if np_lt (key_at a p) (key_at a q) then swap a p q else a.

(** advance [pi] at least once, then while its key is below the pivot *)
Fixpoint scan_up (fuel : nat) (a : list nat) (vp : npfloat) (pi : nat) : nat :=
  match fuel with
  | O => pi
  | S fuel' =>
      if np_lt (key_at a (S pi)) vp then scan_up fuel' a vp (S pi) else S pi
  end.

(** lower [pj] at least once, then while its key is above the pivot *)
Fixpoint scan_down (fuel : nat) (a : list nat) (vp : npfloat) (pj : nat) : nat :=
  match fuel with
  | O => pj
  | S fuel' =>
      if np_lt vp (key_at a (pred pj)) then scan_down fuel' a vp (pred pj)
      else pred pj
  end.

Fixpoint partition_loop (fuel : nat) (a : list nat) (vp : npfloat)
    (pi pj : nat) : list nat * nat :=
  match fuel with
  | O => (a, pi)
  | S fuel' =>
      let pi := scan_up (length a) a vp pi in
      let pj := scan_down (length a) a vp pj in
      if (pj <=? pi)%nat then (a, pi)
      else partition_loop fuel' (swap a pi pj) vp pi pj
  end.

Definition partition (a : list nat) (pl pr : nat) : list nat * nat :=
  let pm := (pl + (pr - pl) / 2)%nat in
  let a := swap_if_less a pm pl in
  let a := swap_if_less a pr pm in
  let a := swap_if_less a pm pl in
  let vp := key_at a pm in
  let a := swap a pm (pr - 1) in
  let '(a, pi) := partition_loop (length a) a vp pl (pr - 1) in
  (swap a pi (pr - 1), pi).

(** shift the larger keys of the sorted prefix up, then store [vi] *)
Fixpoint shift_down (fuel : nat) (a : list nat) (pl : nat) (vi : nat)
    (pj : nat) : list nat :=
  match fuel with
  | O => <[pj := vi]> a
  | S fuel' =>
      if (pl <? pj)%nat && np_lt (nth vi keys NaN) (key_at a (pred pj))
      then shift_down fuel' (<[pj := nth (pred pj) a 0%nat]> a) pl vi (pred pj)
      else <[pj := vi]> a
  end.

(** [for (pi = pl + 1; pi <= pr; ++pi)] *)
Definition insertion_range (a : list nat) (pl pr : nat) : list nat :=
  fold_left (fun a pi => shift_down (length a) a pl (nth pi a 0%nat) pi)
            (seq (S pl) (pr - pl)) a.

Fixpoint quicksort_range (fuel : nat) (a : list nat) (pl pr : nat) : list nat :=
  match fuel with
  | O => insertion_range a pl pr
  | S fuel' =>
      if (16 <? pr - pl)%nat then
        let '(a, pi) := partition a pl pr in
        let a := quicksort_range fuel' a pl (pi - 1) in
        quicksort_range fuel' a (pi + 1) pr
      else insertion_range a pl pr
  end.

Definition quicksort_argsort : list nat :=
  let n := length keys in
  quicksort_range n (seq 0 n) 0 (n - 1).
End Quicksort.

(** The second is a stable sort (what [kind='stable'] asks for): the indices
    [0, 1, ...] are inserted in turn into a sorted list of indices, each after
    the indices whose key is not larger.  It keeps the promise on every input
    ([stable_argsort_spec]). *)
Fixpoint insert_index (keys : list npfloat) (i : nat) (l : list nat)
    : list nat :=
  match l with
  | [] => [i]
  | j :: l' =>
      if np_lt (nth i keys NaN) (nth j keys NaN)
      then i :: j :: l'
      else j :: insert_index keys i l'
  end.

Definition stable_argsort (keys : list npfloat) : list nat :=
  fold_left (fun l i => insert_index keys i l) (seq 0 (length keys)) [].

(** ** Ordering functions *)

Section Ordering.
(** [np.argsort], a function of the numpy library. *)
Variable np_argsort : list npfloat -> list nat.

Definition height_keys (bs : list bounds) (ax : axis) : list npfloat :=
  map (fun b => Fin (lo (get ax b))) bs.

(** [argsort_by_height]: [np.argsort(bounds[:, axis, 0])] *)
Definition argsort_by_height (bs : list bounds) (ax : axis) : list nat :=
  np_argsort (height_keys bs ax).

(** [bounds[:, :, 1] - bounds[:, :, 0]] for one box *)
Definition dimensions (b : bounds) : vec := vsub (col1 b) (col0 b).
(** [np.prod(dimensions, 1)] for one box, on exact scalars: no rounding and
    no overflow; [F64.np_prod] is the [float64] product. *)
Definition np_prod (d : vec) : Q := (a0 d * a1 d * a2 d)%Q.
(** [volume / dimensions[:, axis]] for one box *)
Definition area (ax : axis) (b : bounds) : npfloat :=
  np_true_divide (np_prod (dimensions b)) (get ax (dimensions b)).

Definition area_keys (bs : list bounds) (ax : axis) : list npfloat :=
  map (area ax) bs.

(** [argsort_by_area] *)
Definition argsort_by_area (bs : list bounds) (ax : axis) : list nat :=
  np_argsort (area_keys bs ax).
End Ordering.

(** ** [drop_down] *)

(** [floor[:, 1] = floor[:, 0]] *)
Definition make_flat (b : bounds) : bounds := map3 (fun p => (lo p, lo p)) b.

Definition peqb (p q : Q * Q) : bool :=
  Qeq_bool (lo p) (lo q) && Qeq_bool (hi p) (hi q).
(** [np.array_equal] on two boxes *)
Definition np_array_equal (b c : bounds) : bool := all3 (zip3 peqb b c).

(** [np.argmax]: the index of the first occurrence of the maximum; an empty
    argument raises. *)
Fixpoint argmax_from (best_i : nat) (best : Q) (i : nat) (l : list Q) : nat :=
  match l with
  | [] => best_i
  | x :: l' =>
      if Qltb best x then argmax_from i x (S i) l'
      else argmax_from best_i best (S i) l'
  end.

Definition np_argmax (l : list Q) : option nat :=
  match l with
  | [] => None
  | x :: l' => Some (argmax_from 0 x 1 l')
  end.

(** The two arrays [drop_down] updates in place: the working copy of the
    boxes and the output, both indexed by the original index of a box. *)
Record state : Type := State { st_bounds : list bounds; st_output : list vec }.

(** The candidate surfaces for [source]: the floor first, then the boxes at
    the already processed indices [idxs[:idx]], at their current position,
    that have [source] above them. *)
Definition candidates (ax : axis) (floor : bounds) (processed : list nat)
    (source : bounds) (bs : list bounds) : option (list bounds) :=
  cands ← np_take bs processed;
  Some (floor :: List.filter (fun b => is_below b source ax) cands).

(** [candidates[np.argmax(candidates[:, axis, 1])]], with the index chosen. *)
Definition select (ax : axis) (cands : list bounds) : option (nat * bounds) :=
  k ← np_argmax (map (fun c => hi (get ax c)) cands);
  target ← cands !! k;
  Some (k, target).

(** The value given to [output[i]]: [stack_above] without centering and
    without padding, then the padding unless the target equals the floor. *)
Definition translation (ax : axis) (padding : Q) (floor target source : bounds)
    : vec :=
  let out := stack_above target source ax 0 false in
  if negb (np_array_equal target floor)
  then set ax (get ax out + padding)%Q out
  else out.

(** One iteration of the loop of [drop_down], for the box of index [i].
    [output] has the length of [bounds], so [output[i]] is in range once
    [bounds[i]] is. *)
Definition drop_step (ax : axis) (padding : Q) (floor : bounds)
    (processed : list nat) (i : nat) (st : state) : option state :=
  source ← st_bounds st !! i;
  cands ← candidates ax floor processed source (st_bounds st);
  sel ← select ax cands;
  let out := translation ax padding floor (snd sel) source in
  Some (State (<[i := translate_bounds source out]> (st_bounds st))
              (<[i := out]> (st_output st))).

(** The loop [for idx in range(1, len(idxs))]: [processed] is [idxs[:idx]],
    [todo] is [idxs[idx:]]. *)
Fixpoint drop_loop (ax : axis) (padding : Q) (floor : bounds)
    (processed todo : list nat) (st : state) : option state :=
  match todo with
  | [] => Some st
  | i :: todo' =>
      st' ← drop_step ax padding floor processed i st;
      drop_loop ax padding floor (processed ++ [i]) todo' st'
  end.

(** The two arrays before the loop: [bounds.copy()] and
    [np.zeros((len(bounds), 3))]. *)
Definition initial_state (bs : list bounds) : state :=
  State bs (replicate (length bs) vzero).

(** [drop_down], with the final working copy next to the output.  [idxs[0]]
    raises on an empty collection. *)
Definition drop_down_state (np_argsort : list npfloat -> list nat)
    (bs : list bounds) (ax : axis) (padding : Q) : option state :=
  let idxs := argsort_by_height np_argsort bs ax in
  i0 ← head idxs;
  b0 ← bs !! i0;
  drop_loop ax padding (make_flat b0) [i0] (tail idxs) (initial_state bs).

Definition drop_down (np_argsort : list npfloat -> list nat)
    (bs : list bounds) (ax : axis) (padding : Q) : option (list vec) :=
  st_output <$> drop_down_state np_argsort bs ax padding.

(** Numeric equality of results. *)
Definition out_eq (o : option (list vec)) (expected : list vec) : Prop :=
  exists out, o = Some out /\ Forall2 veq out expected.

(** ** Vocabulary of the claims *)

(** A list of scalars is in non-decreasing order for the comparison [<=]. *)
Definition ieee_sorted (l : list npfloat) : Prop :=
  Sorted (fun a b => ieee_le a b = true) l.


(** ** Collections used as examples *)

(** The collection of [test_sort_by_area]. *)
Definition area_boxes : list bounds :=
  [box 1 3 1 3 1 3; box 1 3 3 4 1 3; box 1 2 3 4 1 2; box 1 2 3 7 1 2].

(** A flat box (zero extent on the last axis) with a box above it. *)
Definition flat_boxes : list bounds := [box 0 1 0 1 0 0; box 0 1 0 1 2 3].

(** The collections of [test_drop_down_above], [test_drop_down_not_above]
    and [test_drop_down_out_of_order]. *)
Definition above_boxes : list bounds :=
  [box 1 3 1 3 1 2; box 2 3 2 4 3 4; box 0 2 0 2 5 6].
Definition apart_boxes : list bounds :=
  [box 1 2 1 2 1 2; box 2 3 2 3 3 4; box 2 3 2 3 4 5].
Definition unordered_boxes : list bounds :=
  [box 0 1 0 1 0 1; box 0 1 1 2 4 5; box 0 1 0 1 2 3].

(** A box resting on another one's top. *)
Definition piled_boxes : list bounds := [box 0 1 0 1 0 1; box 0 1 0 1 3 4].

(** The state after the one iteration on [piled_boxes], resp. [flat_boxes],
    with padding 1. *)
Definition piled_state : state :=
  Eval vm_compute in
    default (initial_state piled_boxes)
      (drop_step Ax2 1 (make_flat (box 0 1 0 1 0 1)) [0%nat] 1
                 (initial_state piled_boxes)).
Definition flat_state : state :=
  Eval vm_compute in
    default (initial_state flat_boxes)
      (drop_step Ax2 1 (make_flat (box 0 1 0 1 0 0)) [0%nat] 1
                 (initial_state flat_boxes)).

(** What holds of the two arrays of [drop_down] while the boxes at the
    indices [pending] have not been moved: the arrays keep the length of the
    input, the pending boxes are where the input has them with a zero output,
    every output is zero off the axis, and every box of the working copy is
    the input box translated by its output. *)
Definition loop_inv (bs : list bounds) (ax : axis) (pending : list nat)
    (st : state) : Prop :=
  length (st_bounds st) = length bs
  /\ length (st_output st) = length bs
  /\ (forall i, i ∈ pending ->
        st_bounds st !! i = bs !! i
        /\ ((i < length bs)%nat -> st_output st !! i = Some vzero))
  /\ (forall i v ax', st_output st !! i = Some v -> ax' <> ax ->
        (get ax' v == 0)%Q)
  /\ (forall i b v, bs !! i = Some b -> st_output st !! i = Some v ->
        exists b', st_bounds st !! i = Some b'
                   /\ beq b' (translate_bounds b v)).

(** ** [get_base] and the loop of the "stack" operation *)

(** [np.argmin]: the index of the first occurrence of the minimum; an empty
    argument raises. *)
Fixpoint argmin_from (best_i : nat) (best : Q) (i : nat) (l : list Q) : nat :=
  match l with
  | [] => best_i
  | x :: l' =>
      if Qltb x best then argmin_from i x (S i) l'
      else argmin_from best_i best (S i) l'
  end.

Definition np_argmin (l : list Q) : option nat :=
  match l with
  | [] => None
  | x :: l' => Some (argmin_from 0 x 1 l')
  end.

(** [get_base]: [bounds[np.argmin(bounds[:, axis, 0])]] *)
Definition get_base (bs : list bounds) (ax : axis) : option bounds :=
  idx ← np_argmin (map (fun b => lo (get ax b)) bs);
  bs !! idx.

(** A translation along one axis only. *)
Definition along (ax : axis) (t : Q) : vec := set ax t vzero.

(** The box invariant on one axis. *)
Definition valid_on (ax : axis) (b : bounds) : Prop :=
  (lo (get ax b) <= hi (get ax b))%Q.

(** The loop of [StackerOperator.execute]: each box is stacked above the
    previous one at its new place; the result lists the [delta] added to the
    location of each object, in loop order. *)
Fixpoint stack_column (prev : bounds) (all_bounds : list bounds) (ax : axis)
    (padding : Q) (centering : bool) : list vec :=
  match all_bounds with
  | [] => []
  | b :: rest =>
      let delta := stack_above prev b ax padding centering in
      delta :: stack_column (translate_bounds b delta) rest ax padding centering
  end.

(** ** The operators of the add-on *)

(** What an [execute] method does to the scene: it either reports the
    warning and returns CANCELLED, or returns FINISHED after having added
    each listed [delta] to the location of the object next to it, in order. *)
Inductive outcome (O : Type) : Type :=
| Cancelled
| Finished (moves : list (O * vec)).
Arguments Cancelled {O}.
Arguments Finished {O} _.

Section Addon.
(** The objects of the scene, compared by identity. *)
Context {O : Type} `{EqDecision O}.
(** [get_bounds(obj)], the world bounding box of an object. *)
Variable get_bounds : O -> option bounds.
Variable np_argsort : list npfloat -> list nat.

(** [StackerDropDownOperator.execute] on the selected objects. *)
Definition drop_down_execute (objs : list O) (ax : axis) (padding : Q)
    : option (outcome O) :=
  if (length objs <? 2)%nat then Some Cancelled
  else
    bs ← mapM get_bounds objs;
    deltas ← drop_down np_argsort bs ax padding;
    Some (Finished (zip objs deltas)).

(** [objs.sort(key=lambda obj: obj != active_object)]: Python's sort is
    stable, so the objects equal to the active one come first and the order
    is otherwise kept. *)
Definition active_first (objs : list O) (active : O) : list O :=
  filter (fun o => o = active) objs ++ filter (fun o => o <> active) objs.

(** The reference box, the objects to move and their boxes, as the two
    branches of [StackerOperator.execute] set them up. *)
Definition stacker_setup (objs : list O) (active : O) (ax : axis)
    (sorting : bool) : option (bounds * list O * list bounds) :=
  if sorting then
    all_bounds ← mapM get_bounds objs;
    let idxs := reverse (argsort_by_area np_argsort all_bounds ax) in
    all_bounds ← np_take all_bounds idxs;
    objs ← np_take objs idxs;
    first_bounds ← get_base all_bounds ax;
    Some (first_bounds, objs, all_bounds)
  else
    let objs := active_first objs active in
    all_bounds ← mapM get_bounds objs;
    first_bounds ← head all_bounds;
    Some (first_bounds, tail objs, tail all_bounds).

(** [StackerOperator.execute] on the selected objects and the active one. *)
Definition stacker_execute (objs : list O) (active : O) (ax : axis)
    (padding : Q) (centering sorting : bool) : option (outcome O) :=
  if (length objs <? 2)%nat then Some Cancelled
  else
    setup ← stacker_setup objs active ax sorting;
    let '(first_bounds, objs, all_bounds) := setup in
    Some (Finished
            (zip objs
                 (stack_column first_bounds all_bounds ax padding centering))).
End Addon.

(** ** [get_bounds] of the add-on *)

(** [np.minimum] and [np.maximum] on two scalars. *)
Definition np_minimum (x y : Q) : Q := if Qltb x y then x else y.
Definition np_maximum (x y : Q) : Q := if Qltb y x then x else y.

(** [np.min] and [np.max] of a one-dimensional array; they raise on an
    empty one. *)
Definition np_min (l : list Q) : option Q :=
  match l with
  | [] => None
  | x :: l' => Some (foldl np_minimum x l')
  end.
Definition np_max (l : list Q) : option Q :=
  match l with
  | [] => None
  | x :: l' => Some (foldl np_maximum x l')
  end.

(** Row [ax] of [np.concatenate([mins, maxs], axis=0).T], where [mins] and
    [maxs] are [np.min] and [np.max] of the corners along axis 0. *)
Definition corner_range (corners : list vec) (ax : axis) : option (Q * Q) :=
  mn ← np_min (map (get ax) corners);
  mx ← np_max (map (get ax) corners);
  Some (mn, mx).

Definition corner_bounds (corners : list vec) : option bounds :=
  x ← corner_range corners Ax0;
  y ← corner_range corners Ax1;
  z ← corner_range corners Ax2;
  Some (Arr3 x y z).

(** The two assignments of the loop body:
    [bounds[:, 0] = np.minimum(bounds[:, 0], other[:, 0])] and
    [bounds[:, 1] = np.maximum(bounds[:, 1], other[:, 1])]. *)
Definition merge_bounds (b other : bounds) : bounds :=
  zip3 (fun p q => (np_minimum (lo p) (lo q), np_maximum (hi p) (hi q)))
       b other.

Section GetBounds.
(** The objects of the scene. *)
Context {Obj : Type}.
(** [[obj.matrix_world @ Vector(corner) for corner in obj.bound_box]]: the
    corners of the object's own bounding box, in world coordinates. *)
Variable world_corners : Obj -> list vec.
(** [obj.children_recursive] *)
Variable children_recursive : Obj -> list Obj.

(** [get_bounds(obj)].  The function calls itself on every element of
    [obj.children_recursive]; [fuel] bounds the depth of these calls. *)
Fixpoint get_bounds (fuel : nat) (obj : Obj) : option bounds :=
  match fuel with
  | 0%nat => None
  | S fuel =>
      bounds ← corner_bounds (world_corners obj);
      foldl (fun acc child =>
               bounds ← acc;
               other ← get_bounds fuel child;
               Some (merge_bounds bounds other))
            (Some bounds) (children_recursive obj)
  end.

(** [b] is the smallest box around the corners of the objects in [family]:
    it contains them all and each of its six faces goes through one. *)
Definition hull (family : Obj -> Prop) (b : bounds) : Prop :=
  (forall o v ax, family o -> v ∈ world_corners o ->
     (lo (get ax b) <= get ax v /\ get ax v <= hi (get ax b))%Q)
  /\ (forall ax, exists o v, family o /\ v ∈ world_corners o
                             /\ (get ax v == lo (get ax b))%Q)
  /\ (forall ax, exists o v, family o /\ v ∈ world_corners o
                             /\ (get ax v == hi (get ax b))%Q).
End GetBounds.

(** A small scene: a parent (object 0) with a child (object 1) that has a
    child of its own (object 2); every other number is a childless object.
    Each bounding box is given by its eight corners. *)
Definition box_corners (x0 x1 y0 y1 z0 z1 : Z) : list vec :=
  [vecZ x0 y0 z0; vecZ x0 y0 z1; vecZ x0 y1 z1; vecZ x0 y1 z0;
   vecZ x1 y0 z0; vecZ x1 y0 z1; vecZ x1 y1 z1; vecZ x1 y1 z0].
Definition scene_corners (o : nat) : list vec :=
  match o with
  | 0%nat => box_corners 0 2 0 2 0 2
  | 1%nat => box_corners 1 3 (-1) 1 2 3
  | 2%nat => box_corners (-4) (-3) 0 1 5 9
  | _ => box_corners 0 1 0 1 0 1
  end.
Definition scene_children (o : nat) : list nat :=
  match o with
  | 0%nat => [1; 2]%nat
  | 1%nat => [2]%nat
  | _ => []
  end.
Definition scene_depth (o : nat) : nat := (2 - o)%nat.

(** ** Double-precision arithmetic *)

(** The arrays of the source hold IEEE 754 binary64 numbers ([float64]).
    They are Rocq's primitive floats, whose operations round to nearest, ties
    to even, as numpy's do.  [value] is the rational number a finite float
    stands for. *)
Definition SF2Q (x : spec_float) : Q :=
  match x with
  | S754_finite s m e => (inject_Z (cond_Zopp s (Z.pos m)) * Qpower 2 e)%Q
  | _ => 0%Q
  end.
Definition value (x : float) : Q := SF2Q (Prim2SF x).

(** An operation is exact at its arguments when its result is finite and
    stands for the sum (the difference, the half) of the numbers its
    arguments stand for: nothing was rounded away. *)
Definition exact_add (x y : float) : Prop :=
  is_finite (x + y)%float = true
  /\ (value (x + y)%float == value x + value y)%Q.
Definition exact_sub (x y : float) : Prop :=
  is_finite (x - y)%float = true
  /\ (value (x - y)%float == value x - value y)%Q.
Definition exact_half (x : float) : Prop :=
  is_finite (x / 2)%float = true
  /\ (value (x / 2)%float == value x / 2)%Q.

(** A [float64] scalar as comparisons and [np.argsort] see it: the number it
    stands for, an infinity, or not-a-number. *)
Definition np_of_float (x : float) : npfloat :=
  match Prim2SF x with
  | S754_nan => NaN
  | S754_infinity s => if s then NInf else PInf
  | _ => Fin (value x)
  end.

(** The functions of [stacker.py] on [float64] arrays. *)
Module F64.
(** shape [(3,)] *)
Definition vec : Type := arr3 float.
(** shape [(3, 2)]: per axis the pair (min, max) *)
Definition bounds : Type := arr3 (float * float).

Definition lo (p : float * float) : float := fst p.
Definition hi (p : float * float) : float := snd p.
Definition col0 (b : bounds) : vec := map3 lo b.
Definition col1 (b : bounds) : vec := map3 hi b.
Definition vadd (u v : vec) : vec := zip3 PrimFloat.add u v.
Definition vsub (u v : vec) : vec := zip3 PrimFloat.sub u v.

Definition box (x0 x1 y0 y1 z0 z1 : float) : bounds :=
  Arr3 (x0, x1) (y0, y1) (z0, z1).

(** [np.mean(b, axis=-1)]: per axis, the sum of the two entries, divided
    by their number. *)
Definition np_mean (b : bounds) : vec :=
  map3 (fun p => (lo p + hi p) / 2)%float b.

(** [np.tile(delta, (2, 1)).T] *)
Definition np_tile_T (delta : vec) : bounds := map3 (fun d => (d, d)) delta.

(** [translate_bounds]: [bounds + np.tile(delta, (2, 1)).T] *)
Definition translate_bounds (b : bounds) (delta : vec) : bounds :=
  zip3 (fun p q => (lo p + lo q, hi p + hi q)%float) b (np_tile_T delta).

(** [stack_above(base_bounds, incoming_bounds, axis, padding, centering)] *)
Definition stack_above (base_bounds incoming_bounds : bounds) (ax : axis)
    (padding : float) (centering : bool) : vec :=
  let source := if centering then np_mean incoming_bounds
                else col0 incoming_bounds in
  let target := if centering then np_mean base_bounds else source in
  let source := set ax (lo (get ax incoming_bounds)) source in
  let target := set ax (hi (get ax base_bounds)) target in
  let target := set ax (get ax target + padding)%float target in
  vsub target source.

(** [bounds[:, :, 1] - bounds[:, :, 0]] for one box *)
Definition dimensions (b : bounds) : vec := vsub (col1 b) (col0 b).
(** [np.prod(dimensions, 1)] for one box: the three extents multiplied from
    left to right *)
Definition np_prod (d : vec) : float := (a0 d * a1 d * a2 d)%float.
(** [volume / dimensions[:, axis]] for one box *)
Definition area (ax : axis) (b : bounds) : float :=
  (np_prod (dimensions b) / get ax (dimensions b))%float.

Definition height_keys (bs : list bounds) (ax : axis) : list npfloat :=
  map (fun b => np_of_float (lo (get ax b))) bs.
Definition area_keys (bs : list bounds) (ax : axis) : list npfloat :=
  map (fun b => np_of_float (area ax b)) bs.

Section Ordering.
(** [np.argsort], a function of the numpy library. *)
Variable np_argsort : list npfloat -> list nat.

(** [argsort_by_height]: [np.argsort(bounds[:, axis, 0])] *)
Definition argsort_by_height (bs : list bounds) (ax : axis) : list nat :=
  np_argsort (height_keys bs ax).

(** [argsort_by_area] *)
Definition argsort_by_area (bs : list bounds) (ax : axis) : list nat :=
  np_argsort (area_keys bs ax).
End Ordering.



(** The midpoint of an interval with finite ends, as a number. *)
Definition center (p : float * float) : Q := ((value (lo p) + value (hi p)) / 2)%Q.

(** The operations that put the lower face of [incoming] on [base] are all
    exact: the addition of the padding, the subtraction that gives the
    translation, and the addition of the translation. *)
Definition exact_landing (base incoming : bounds) (ax : axis)
    (padding : float) : Prop :=
  let top := (hi (get ax base) + padding)%float in
  let bottom := lo (get ax incoming) in
  exact_add (hi (get ax base)) padding
  /\ exact_sub top bottom
  /\ exact_add bottom (top - bottom)%float.

(** The operations that centre [incoming] over [base] on the axis [ax] are
    all exact: the two means, their difference, and its addition to the two
    ends of the interval. *)
Definition exact_centering (base incoming : bounds) (ax : axis) : Prop :=
  let b := get ax base in
  let i := get ax incoming in
  let d := ((lo b + hi b) / 2 - (lo i + hi i) / 2)%float in
  exact_add (lo b) (hi b) /\ exact_half (lo b + hi b)%float
  /\ exact_add (lo i) (hi i) /\ exact_half (lo i + hi i)%float
  /\ exact_sub ((lo b + hi b) / 2)%float ((lo i + hi i) / 2)%float
  /\ exact_add (lo i) d /\ exact_add (hi i) d.

(** Translating [x] by [d1] and then by [d2], and translating it by
    [d1 + d2], without rounding. *)
Definition exact_shifts (x d1 d2 : float) : Prop :=
  exact_add x d1 /\ exact_add (x + d1)%float d2
  /\ exact_add d1 d2 /\ exact_add x (d1 + d2)%float.
End F64.

(** A shelf whose top is at 0.8 and a crate above it. *)
Definition shelf : F64.bounds := F64.box 0.1 0.2 0 1 0 0.8.
Definition crate : F64.bounds := F64.box 0.1 1 0 1 4.5 5.5.

(** A box at 0.1 on every axis, and two translations. *)
Definition tenth_box : F64.bounds := F64.box 0.1 0.1 0.1 0.1 0.1 0.1.
Definition fifth : F64.vec := Arr3 0.2%float 0.2%float 0.2%float.
Definition three_tenths : F64.vec := Arr3 0.3%float 0.3%float 0.3%float.



(** The boxes of [test_stack_above] and of [test_sort_by_area]. *)
Definition low_box : F64.bounds := F64.box 1 2 3 4 5 6.
Definition high_box : F64.bounds := F64.box 10 11 12 13 14 15.
Definition area_boxes_f64 : list F64.bounds :=
  [F64.box 1 3 1 3 1 3; F64.box 1 3 3 4 1 3; F64.box 1 2 3 4 1 2;
   F64.box 1 2 3 7 1 2].

(** ** Basic facts about the array model *)

Lemma get_set_same {A} (ax : axis) (x : A) (a : arr3 A) :
  get ax (set ax x a) = x.
Proof. now destruct ax. Qed.

Lemma get_set_other {A} (ax ax' : axis) (x : A) (a : arr3 A) :
  ax' <> ax -> get ax' (set ax x a) = get ax' a.
Proof. destruct ax, ax'; simpl; congruence. Qed.

Lemma get_map3 {A B} (f : A -> B) (ax : axis) (a : arr3 A) :
  get ax (map3 f a) = f (get ax a).
Proof. now destruct ax. Qed.

Lemma get_zip3 {A B C} (f : A -> B -> C) (ax : axis) a b :
  get ax (zip3 f a b) = f (get ax a) (get ax b).
Proof. now destruct ax. Qed.

Lemma beq_get (b c : bounds) : beq b c <-> forall ax, peq (get ax b) (get ax c).
Proof.
  split.
  - intros (H0 & H1 & H2) []; assumption.
  - intros H. repeat split; first [apply (H Ax0) | apply (H Ax1) | apply (H Ax2)].
Qed.

Lemma Qltb_lt (x y : Q) : Qltb x y = true <-> (x < y)%Q.
Proof.
  unfold Qltb. rewrite negb_true_iff, <- not_true_iff_false, Qle_bool_iff.
  split; [apply Qnot_le_lt | apply Qlt_not_le].
Qed.

Lemma Qgeb_ge (x y : Q) : Qgeb x y = true <-> (y <= x)%Q.
Proof. apply Qle_bool_iff. Qed.

Lemma get_translate_bounds (ax : axis) (b : bounds) (d : vec) :
  get ax (translate_bounds b d)
  = (lo (get ax b) + get ax d, hi (get ax b) + get ax d)%Q.
Proof. now destruct ax. Qed.

(** ** The unit tests of the module, replayed on the model *)

Example test_get_base :
  get_base [box 1 3 1 3 1 3; box 1 3 3 4 2 3; box 1 2 3 4 3 4;
            box 1 2 3 7 0 4] Ax2
  = Some (box 1 2 3 7 0 4).
Proof. reflexivity. Qed.

Example test_stack_above :
  veq (stack_above (box 1 2 3 4 5 6) (box 10 11 12 13 14 15) Ax0 0 true)
      (vecZ (-8) (-9) (-9))
  /\ veq (stack_above (box 1 2 3 4 5 6) (box 10 11 12 13 14 15) Ax1 0 true)
         (vecZ (-9) (-8) (-9))
  /\ veq (stack_above (box 1 2 3 4 5 6) (box 10 11 12 13 14 15) Ax2 0 true)
         (vecZ (-9) (-9) (-8)).
Proof. vm_compute. repeat split; reflexivity. Qed.

Example test_stack_above_no_centering :
  veq (stack_above (box 1 2 3 4 5 6) (box 10 11 12 13 14 15) Ax0 0 false)
      (vecZ (-8) 0 0)
  /\ veq (stack_above (box 1 2 3 4 5 6) (box 10 11 12 13 14 15) Ax1 0 false)
         (vecZ 0 (-8) 0)
  /\ veq (stack_above (box 1 2 3 4 5 6) (box 10 11 12 13 14 15) Ax2 0 false)
         (vecZ 0 0 (-8)).
Proof. vm_compute. repeat split; reflexivity. Qed.

Example test_stack_above_padding :
  veq (stack_above (box 1 2 3 4 5 6) (box 10 11 12 13 14 15) Ax2 0 true)
      (vecZ (-9) (-9) (-8))
  /\ veq (stack_above (box 1 2 3 4 5 6) (box 10 11 12 13 14 15) Ax2 1 true)
         (vecZ (-9) (-9) (-7)).
Proof. vm_compute. repeat split; reflexivity. Qed.

Example test_translate_bounds :
  beq (translate_bounds (box 1 2 3 4 5 6) (vecZ 7 8 9)) (box 8 9 11 12 14 15).
Proof. vm_compute. repeat split; reflexivity. Qed.

Example test_sort_by_area :
  argsort_by_area quicksort_argsort area_boxes Ax2 = [2; 1; 0; 3]%nat.
Proof. reflexivity. Qed.

Example test_sort_by_height :
  argsort_by_height quicksort_argsort
    [box 1 3 1 3 1 3; box 1 3 3 4 0 3; box 1 2 3 4 3 2; box 1 2 3 7 2 2] Ax2
  = [1; 0; 3; 2]%nat.
Proof. reflexivity. Qed.

Example test_is_below :
  is_below (box 2 3 2 4 2 3) (box 1 3 1 3 1 3) Ax2 = true
  /\ is_below (box 1 3 1 3 1 3) (box 2 3 2 4 2 3) Ax2 = true
  /\ is_below (box 2 3 2 4 2 3) (box 2 3 2 4 4 5) Ax2 = true
  /\ is_below (box 2 3 2 4 4 5) (box 2 3 2 4 2 3) Ax2 = false
  /\ is_below (box 1 3 1 3 1 3) (box 0 1 1 3 1 3) Ax2 = false
  /\ is_below (box 1 3 1 3 1 3) (box 3 4 2 4 1 3) Ax2 = false
  /\ is_below (box 1 3 1 3 1 3) (box 1 3 0 1 1 3) Ax2 = false
  /\ is_below (box 1 3 1 3 1 3) (box 1 3 3 4 1 3) Ax2 = false
  /\ is_below (box 1 3 1 3 1 3) (box 8 9 8 9 1 3) Ax2 = false.
Proof. repeat split; reflexivity. Qed.

Example test_drop_down_out_of_order :
  out_eq (drop_down quicksort_argsort unordered_boxes Ax2 0)
         [vecZ 0 0 0; vecZ 0 0 (-4); vecZ 0 0 (-1)].
Proof.
  eexists. split; [vm_compute; reflexivity |]. repeat constructor; reflexivity.
Qed.

Example test_drop_down_unstable_order :
  out_eq (drop_down quicksort_argsort
                    [box 0 1 0 1 0 4; box 0 1 2 3 2 3; box 0 1 0 1 1 5] Ax2 0)
         [vecZ 0 0 0; vecZ 0 0 (-2); vecZ 0 0 3].
Proof.
  eexists. split; [vm_compute; reflexivity |]. repeat constructor; reflexivity.
Qed.

Example test_drop_down_no_floor_padding :
  out_eq (drop_down quicksort_argsort
                    [box 0 1 0 1 0 4; box 0 1 2 3 2 3] Ax2 1)
         [vecZ 0 0 0; vecZ 0 0 (-2)].
Proof.
  eexists. split; [vm_compute; reflexivity |]. repeat constructor; reflexivity.
Qed.

(** The tests on whole numbers give the same results on [float64]. *)
Example test_stack_above_f64 :
  F64.stack_above low_box high_box Ax0 0 true = (Arr3 (-8) (-9) (-9))%float
  /\ F64.stack_above low_box high_box Ax1 0 true = (Arr3 (-9) (-8) (-9))%float
  /\ F64.stack_above low_box high_box Ax2 0 true = (Arr3 (-9) (-9) (-8))%float
  /\ F64.stack_above low_box high_box Ax2 1 true = (Arr3 (-9) (-9) (-7))%float
  /\ F64.stack_above low_box high_box Ax0 0 false = (Arr3 (-8) 0 0)%float
  /\ F64.stack_above low_box high_box Ax1 0 false = (Arr3 0 (-8) 0)%float
  /\ F64.stack_above low_box high_box Ax2 0 false = (Arr3 0 0 (-8))%float.
Proof. repeat split; reflexivity. Qed.

Example test_translate_bounds_f64 :
  F64.translate_bounds low_box (Arr3 7 8 9)%float = F64.box 8 9 11 12 14 15.
Proof. reflexivity. Qed.

Example test_sort_by_area_f64 :
  map (F64.area Ax2) area_boxes_f64 = [4; 2; 1; 4]%float
  /\ F64.argsort_by_area stable_argsort area_boxes_f64 Ax2 = [2; 1; 0; 3]%nat.
Proof. split; reflexivity. Qed.

(** ** Facts about double-precision scalars *)



Lemma is_finite_SF (x : float) :
  is_finite x = true ->
  match Prim2SF x with S754_nan | S754_infinity _ => False | _ => True end.
Proof.
  unfold is_finite, is_nan, is_infinity.
  rewrite !FloatAxioms.eqb_spec, abs_spec.
  destruct (Prim2SF x) as [s|s| |s m e]; simpl; try (intros; exact I).
  - destruct s; vm_compute; intros; discriminate.
  - vm_compute. intros; discriminate.
Qed.

(** The difference of a finite number and itself is zero, exactly. *)
Lemma sub_diag (x : float) : is_finite x = true -> (x - x)%float = 0%float.
Proof.
  intros H. apply is_finite_SF in H. apply Prim2SF_inj. rewrite sub_spec.
  destruct (Prim2SF x) as [s|s| |s m e]; try contradiction.
  - now destruct s.
  - unfold SF64sub, SFsub. rewrite Z.sub_diag. reflexivity.
Qed.



Lemma get_translate_bounds_f64 (ax : axis) (b : F64.bounds) (d : F64.vec) :
  get ax (F64.translate_bounds b d)
  = (F64.lo (get ax b) + get ax d, F64.hi (get ax b) + get ax d)%float.
Proof. now destruct ax. Qed.

Lemma get_stack_above_f64_axis (base incoming : F64.bounds) (ax : axis)
    (padding : float) (centering : bool) :
  get ax (F64.stack_above base incoming ax padding centering)
  = (F64.hi (get ax base) + padding - F64.lo (get ax incoming))%float.
Proof. now destruct ax, centering. Qed.

Lemma get_stack_above_f64_other (base incoming : F64.bounds) (ax ax' : axis)
    (padding : float) (centering : bool) :
  ax' <> ax ->
  get ax' (F64.stack_above base incoming ax padding centering)
  = if centering
    then ((F64.lo (get ax' base) + F64.hi (get ax' base)) / 2
          - (F64.lo (get ax' incoming) + F64.hi (get ax' incoming)) / 2)%float
    else (F64.lo (get ax' incoming) - F64.lo (get ax' incoming))%float.
Proof. intros Hne. destruct ax, ax', centering; try congruence; reflexivity. Qed.

(** ** Claims about the pairwise geometry *)

(** C8, as stated: translating by [d1] and then by [d2] would give the same
    box as translating once by [d1 + d2].  The additions are float64
    additions, which round: for a box at 0.1, [d1] = 0.2 and [d2] = 0.3 the
    first gives (0.1 + 0.2) + 0.3 = 0.6000000000000001 and the second
    0.1 + (0.2 + 0.3) = 0.6. *)
Lemma translate_bounds_not_additive :
  F64.lo (get Ax0 (F64.translate_bounds
                     (F64.translate_bounds tenth_box fifth) three_tenths))
  = 0.6000000000000001%float
  /\ F64.lo (get Ax0 (F64.translate_bounds tenth_box
                        (F64.vadd fifth three_tenths)))
     = 0.6%float
  /\ (0.6000000000000001 =? 0.6)%float = false.
Proof. vm_compute. repeat split; reflexivity. Qed.

(** C8, amended: a translation shifts the min and the max of every axis by
    that axis' component of the delta, with one float64 addition each, and
    changes nothing else; translating by [d1] and then by [d2] gives the
    same numbers as translating once by [d1 + d2] whenever the additions
    involved are exact. *)
Theorem translate_bounds_f64_additive :
  forall (b : F64.bounds) (d1 d2 : F64.vec) (ax : axis),
    get ax (F64.translate_bounds b d1)
    = (F64.lo (get ax b) + get ax d1, F64.hi (get ax b) + get ax d1)%float
    /\ (F64.exact_shifts (F64.lo (get ax b)) (get ax d1) (get ax d2) ->
        (value (F64.lo (get ax (F64.translate_bounds
                                  (F64.translate_bounds b d1) d2)))
         == value (F64.lo (get ax (F64.translate_bounds b
                                     (F64.vadd d1 d2)))))%Q)
    /\ (F64.exact_shifts (F64.hi (get ax b)) (get ax d1) (get ax d2) ->
        (value (F64.hi (get ax (F64.translate_bounds
                                  (F64.translate_bounds b d1) d2)))
         == value (F64.hi (get ax (F64.translate_bounds b
                                     (F64.vadd d1 d2)))))%Q).
Proof.
  intros b d1 d2 ax.
  split; [apply get_translate_bounds_f64 |].
  rewrite !get_translate_bounds_f64. unfold F64.vadd. rewrite get_zip3.
  unfold F64.lo, F64.hi; simpl.
  split; intros ([_ E1] & [_ E2] & [_ E3] & [_ E4]);
    rewrite E2, E4, E1, E3; ring.
Qed.

Lemma translate_bounds_f64_additive_witness :
  (value (F64.lo (get Ax2 (F64.translate_bounds
                             (F64.translate_bounds low_box
                                (Arr3 7 8 9)%float) (Arr3 1 2 3)%float)))
   == value (F64.lo (get Ax2 (F64.translate_bounds low_box
                                (F64.vadd (Arr3 7 8 9)%float
                                          (Arr3 1 2 3)%float)))))%Q
  /\ (value (F64.hi (get Ax2 (F64.translate_bounds
                                (F64.translate_bounds low_box
                                   (Arr3 7 8 9)%float) (Arr3 1 2 3)%float)))
      == value (F64.hi (get Ax2 (F64.translate_bounds low_box
                                   (F64.vadd (Arr3 7 8 9)%float
                                             (Arr3 1 2 3)%float)))))%Q.
Proof.
  destruct (translate_bounds_f64_additive low_box (Arr3 7 8 9)%float
                                          (Arr3 1 2 3)%float Ax2)
    as (_ & Hlo & Hhi).
  split; [apply Hlo | apply Hhi];
    unfold F64.exact_shifts, exact_add; vm_compute; repeat split; reflexivity.
Defined.

(** C1, as stated: after the translation the lower face of the incoming box
    would be at the base's upper face plus the padding, and with centering
    its centres would be the base's.  The translation is computed and added
    in float64: for a shelf whose top is at 0.8 and a crate whose lower face
    is at 4.5 the translation is 0.8 - 4.5 and the crate lands at
    4.5 + (0.8 - 4.5) = 0.7999999999999998, below the top; on the first axis
    the centre of the moved crate is 0.14999999999999997 and the centre of
    the shelf 0.15000000000000002. *)
Lemma stack_above_landing_rounds :
  F64.lo (get Ax2 (F64.translate_bounds crate
                     (F64.stack_above shelf crate Ax2 0 true)))
  = 0.7999999999999998%float
  /\ (F64.hi (get Ax2 shelf) + 0)%float = 0.8%float
  /\ (0.7999999999999998 <? 0.8)%float = true
  /\ get Ax0 (F64.np_mean (F64.translate_bounds crate
                             (F64.stack_above shelf crate Ax2 0 true)))
     = 0.14999999999999997%float
  /\ get Ax0 (F64.np_mean shelf) = 0.15000000000000002%float
  /\ (0.14999999999999997 =? 0.15000000000000002)%float = false.
Proof. vm_compute. repeat split; reflexivity. Qed.

(** C1, amended: on the stacking axis the translation is the float64
    difference between the base's upper face plus the padding and the
    incoming box's lower face, so the translated lower face is
    [lo + ((hi + padding) - lo)]: it is the base's upper face plus the
    padding whenever these three operations are exact.  With centering the
    translated incoming box has the base's centres on the two other axes
    whenever the operations that compute and add the difference of the means
    are exact.  Without centering the translation is exactly zero on the two
    other axes, for finite bounds. *)
Theorem stack_above_f64_correct :
  forall (base incoming : F64.bounds) (ax : axis) (padding : float)
         (centering : bool),
    F64.lo (get ax (F64.translate_bounds incoming
                      (F64.stack_above base incoming ax padding centering)))
    = (F64.lo (get ax incoming)
       + (F64.hi (get ax base) + padding - F64.lo (get ax incoming)))%float
    /\ (F64.exact_landing base incoming ax padding ->
        (value (F64.lo (get ax (F64.translate_bounds incoming
                  (F64.stack_above base incoming ax padding centering))))
         == value (F64.hi (get ax base)) + value padding)%Q)
    /\ (forall ax', ax' <> ax ->
          F64.exact_centering base incoming ax' ->
          (F64.center (get ax' (F64.translate_bounds incoming
                         (F64.stack_above base incoming ax padding true)))
           == F64.center (get ax' base))%Q)
    /\ (forall ax', ax' <> ax ->
          is_finite (F64.lo (get ax' incoming)) = true ->
          get ax' (F64.stack_above base incoming ax padding false) = 0%float).
Proof.
  intros base incoming ax padding centering.
  split; [| split; [| split]].
  - rewrite get_translate_bounds_f64, get_stack_above_f64_axis. reflexivity.
  - intros ([_ E1] & [_ E2] & [_ E3]).
    rewrite get_translate_bounds_f64, get_stack_above_f64_axis.
    unfold F64.lo at 1. simpl fst. rewrite E3, E2, E1. ring.
  - intros ax' Hne ([_ E1] & [_ E2] & [_ E3] & [_ E4] & [_ E5] & [_ E6] & [_ E7]).
    rewrite get_translate_bounds_f64,
      (get_stack_above_f64_other base incoming ax ax' padding true Hne).
    unfold F64.center. unfold F64.lo at 1, F64.hi at 2. simpl fst. simpl snd.
    rewrite E6, E7, E5, E2, E4, E1, E3. field.
  - intros ax' Hne Hfin.
    rewrite (get_stack_above_f64_other base incoming ax ax' padding false Hne).
    now apply sub_diag.
Qed.

Lemma stack_above_f64_correct_witness :
  (value (F64.lo (get Ax2 (F64.translate_bounds high_box
            (F64.stack_above low_box high_box Ax2 1 true))))
   == value (F64.hi (get Ax2 low_box)) + value 1%float)%Q
  /\ (F64.center (get Ax0 (F64.translate_bounds high_box
                     (F64.stack_above low_box high_box Ax2 1 true)))
      == F64.center (get Ax0 low_box))%Q
  /\ get Ax0 (F64.stack_above low_box high_box Ax2 1 false) = 0%float.
Proof.
  destruct (stack_above_f64_correct low_box high_box Ax2 1 true)
    as (_ & Hland & Hcentre & Hzero).
  split; [| split].
  - apply Hland. unfold F64.exact_landing, exact_add, exact_sub.
    vm_compute. repeat split; reflexivity.
  - apply Hcentre; [discriminate |].
    unfold F64.exact_centering, exact_add, exact_sub, exact_half.
    vm_compute. repeat split; reflexivity.
  - apply Hzero; [discriminate | reflexivity].
Defined.

(** C3, as stated: the horizontal test of [is_below] would be a
    closed-interval intersection, so that two boxes sharing only a face on a
    horizontal axis count as overlapping.  The source compares strictly: for
    A = [[1,3],[1,3],[1,3]] and B = [[0,1],[1,3],[1,3]] (B touches A at x = 1)
    the closed intervals intersect on both horizontal axes and B's top is
    above A's bottom, yet [is_below] answers false. *)
Lemma is_below_closed_touch_false :
  ~ (is_below (box 1 3 1 3 1 3) (box 0 1 1 3 1 3) Ax2 = true
     <-> (forall ax', ax' <> Ax2 ->
            closed_overlap (get ax' (box 1 3 1 3 1 3))
                           (get ax' (box 0 1 1 3 1 3)))
         /\ (lo (get Ax2 (box 1 3 1 3 1 3))
             <= hi (get Ax2 (box 0 1 1 3 1 3)))%Q).
Proof.
  intros [_ H].
  assert (Hf : is_below (box 1 3 1 3 1 3) (box 0 1 1 3 1 3) Ax2 = false)
    by reflexivity.
  rewrite H in Hf; [discriminate |].
  split.
  - intros [] Hne; try congruence; unfold closed_overlap; simpl; split;
      discriminate.
  - simpl. discriminate.
Qed.

(** C3, amended: [is_below a b ax] holds exactly when the two boxes overlap
    with positive extent (strict comparisons, touching does not count) on both
    axes other than [ax], and b's upper bound on [ax] is at least a's lower
    bound on [ax]. *)
Theorem is_below_iff_strict :
  forall (a b : bounds) (ax : axis),
    is_below a b ax = true
    <-> (forall ax', ax' <> ax ->
           (lo (get ax' b) < hi (get ax' a) /\ lo (get ax' a) < hi (get ax' b))%Q)
        /\ (lo (get ax a) <= hi (get ax b))%Q.
Proof.
  intros a b ax. unfold is_below, all3, Qgtb.
  split.
  - intros H. destruct ax; simpl in H;
      repeat (apply andb_prop in H; destruct H as [H ?]);
      repeat match goal with
        | X : (_ || _)%bool = true |- _ =>
            apply orb_prop in X; destruct X as [X | X];
            apply andb_prop in X; destruct X
        | X : Qltb _ _ = true |- _ => apply Qltb_lt in X
        | X : Qgeb _ _ = true |- _ => apply Qgeb_ge in X
        end;
      (split; [intros [] Hne; try congruence; simpl; split; assumption
              | simpl; assumption]).
  - intros [Hh Hv].
    assert (G : forall ax', ax' <> ax ->
                Qltb (lo (get ax' b)) (hi (get ax' a)) = true
                /\ Qltb (lo (get ax' a)) (hi (get ax' b)) = true).
    { intros ax' Hne. destruct (Hh ax' Hne). split; now apply Qltb_lt. }
    apply Qgeb_ge in Hv.
    pose proof (G Ax0) as G0. pose proof (G Ax1) as G1. pose proof (G Ax2) as G2.
    clear G Hh.
    destruct ax; simpl in *;
      repeat match goal with
        | X : ?x <> ?x -> _ |- _ => clear X
        | X : _ <> _ -> _ /\ _ |- _ => destruct X as [? ?]; [discriminate |]
        end;
      repeat match goal with
        | X : Qltb _ _ = true |- _ => rewrite X; clear X
        end;
      rewrite ?Hv; reflexivity.
Qed.

(** ** The sorting order and the sorting procedures *)

Lemma Qltb_false (x y : Q) : Qltb x y = false <-> (y <= x)%Q.
Proof.
  unfold Qltb. rewrite negb_false_iff. apply Qle_bool_iff.
Qed.

Ltac np_cases :=
  repeat match goal with
    | a : npfloat |- _ => destruct a
    end;
  simpl in *; try congruence;
  repeat match goal with
    | H : Qltb _ _ = true |- _ => apply Qltb_lt in H
    | H : Qltb _ _ = false |- _ => apply Qltb_false in H
    | |- Qltb _ _ = true => apply Qltb_lt
    | |- Qltb _ _ = false => apply Qltb_false
    end.

Lemma np_lt_irrefl (a : npfloat) : np_lt a a = false.
Proof. np_cases. apply Qle_refl. Qed.

Lemma np_lt_le (a b : npfloat) : np_lt a b = true -> np_le a b.
Proof. unfold np_le. intros H. np_cases. now apply Qlt_le_weak. Qed.

#[local] Instance np_le_trans : Transitive np_le.
Proof.
  unfold np_le. intros a b c H1 H2. np_cases. eapply Qle_trans; eassumption.
Qed.

Lemma HdRel_take_keys_insert keys x i l :
  np_le x (nth i keys NaN) ->
  HdRel np_le x (take_keys keys l) ->
  HdRel np_le x (take_keys keys (insert_index keys i l)).
Proof.
  intros Hx Hl. destruct l as [|j l]; simpl.
  - now constructor.
  - destruct (np_lt _ _); simpl; constructor; trivial.
    now inversion Hl.
Qed.

Lemma insert_index_perm keys i l : insert_index keys i l ≡ₚ i :: l.
Proof.
  induction l as [|j l IH]; simpl; [done |].
  destruct (np_lt _ _); [done |].
  rewrite IH. apply Permutation_swap.
Qed.

Lemma insert_index_sorted keys i l :
  Sorted np_le (take_keys keys l) ->
  Sorted np_le (take_keys keys (insert_index keys i l)).
Proof.
  induction l as [|j l IH]; simpl; intros Hs.
  - repeat constructor.
  - inversion Hs as [|? ? Hs' Hhd]; subst.
    destruct (np_lt _ _) eqn:E; simpl.
    + constructor; [assumption |]. constructor. now apply np_lt_le.
    + constructor; [now apply IH |].
      apply HdRel_take_keys_insert; [exact E | assumption].
Qed.

Lemma fold_insert_perm keys xs acc :
  fold_left (fun l i => insert_index keys i l) xs acc ≡ₚ xs ++ acc.
Proof.
  revert acc. induction xs as [|x xs IH]; intros acc; simpl; [done |].
  rewrite IH, insert_index_perm. symmetry. apply Permutation_middle.
Qed.

Lemma fold_insert_sorted keys xs acc :
  Sorted np_le (take_keys keys acc) ->
  Sorted np_le
    (take_keys keys (fold_left (fun l i => insert_index keys i l) xs acc)).
Proof.
  revert acc. induction xs as [|x xs IH]; intros acc Hs; simpl; [done |].
  apply IH. now apply insert_index_sorted.
Qed.

(** The stable sort keeps the promise of [np.argsort] on every input. *)
Lemma stable_argsort_spec (keys : list npfloat) :
  is_argsort keys (stable_argsort keys).
Proof.
  unfold is_argsort, stable_argsort. split.
  - rewrite fold_insert_perm. now rewrite app_nil_r.
  - apply Sorted_StronglySorted; [apply _ |].
    apply fold_insert_sorted. constructor.
Qed.

Lemma sortedb_Sorted (l : list npfloat) : sortedb l = true -> Sorted np_le l.
Proof.
  induction l as [|x l IH]; intros H; [constructor |].
  destruct l as [|y l]; [repeat constructor |].
  simpl in H. apply andb_prop in H as [Hxy Hl].
  constructor; [now apply IH |]. constructor.
  now apply negb_true_iff in Hxy.
Qed.

Lemma argsort_okb_sound (keys : list npfloat) (idxs : list nat) :
  argsort_okb keys idxs = true -> is_argsort keys idxs.
Proof.
  unfold argsort_okb. intros H.
  apply andb_prop in H as [H Hs]. apply andb_prop in H as [Hlen Hin].
  apply Nat.eqb_eq in Hlen. split.
  - symmetry. apply submseteq_length_Permutation.
    + apply NoDup_submseteq; [apply NoDup_seq |].
      intros i Hi. rewrite forallb_forall in Hin.
      apply list_elem_of_In in Hi. specialize (Hin i Hi).
      apply existsb_exists in Hin as (j & Hj & E).
      apply Nat.eqb_eq in E. subst j. now apply list_elem_of_In.
    + rewrite length_seq. lia.
  - apply Sorted_StronglySorted; [apply _ |]. now apply sortedb_Sorted.
Qed.

Lemma StronglySorted_lookup {A} (R : relation A) (l : list A) p q x y :
  StronglySorted R l -> (p < q)%nat ->
  l !! p = Some x -> l !! q = Some y -> R x y.
Proof.
  intros Hs. revert p q. induction Hs as [|a l Hs IH Hall]; intros p q Hpq Hp Hq.
  - discriminate.
  - destruct q as [|q]; [lia |]. destruct p as [|p]; simpl in *.
    + injection Hp as <-. rewrite Forall_forall in Hall. apply Hall.
      eapply list_elem_of_lookup_2; eassumption.
    + apply (IH p q); [lia | assumption..].
Qed.

Lemma is_argsort_lookup keys idxs i :
  is_argsort keys idxs -> (i < length keys)%nat -> exists p, idxs !! p = Some i.
Proof.
  intros [Hp _] Hi. apply list_elem_of_lookup_1. rewrite Hp.
  apply elem_of_seq. lia.
Qed.

Lemma is_argsort_range keys idxs p i :
  is_argsort keys idxs -> idxs !! p = Some i -> (i < length keys)%nat.
Proof.
  intros [Hp _] Hi. apply list_elem_of_lookup_2 in Hi. rewrite Hp in Hi.
  apply elem_of_seq in Hi. lia.
Qed.

Lemma is_argsort_NoDup keys idxs : is_argsort keys idxs -> NoDup idxs.
Proof. intros [Hp _]. rewrite Hp. apply NoDup_seq. Qed.

Lemma is_argsort_length keys idxs :
  is_argsort keys idxs -> length idxs = length keys.
Proof. intros [Hp _]. rewrite Hp. apply length_seq. Qed.

Lemma is_argsort_le keys idxs p q i j :
  is_argsort keys idxs -> (p < q)%nat ->
  idxs !! p = Some i -> idxs !! q = Some j ->
  np_le (nth i keys NaN) (nth j keys NaN).
Proof.
  intros [_ Hs] Hpq Hp Hq.
  apply (StronglySorted_lookup np_le _ p q _ _ Hs Hpq); unfold take_keys.
  - change (map ?f ?l) with (f <$> l). now rewrite list_lookup_fmap, Hp.
  - change (map ?f ?l) with (f <$> l). now rewrite list_lookup_fmap, Hq.
Qed.

Lemma Sorted_lookup_S {A} (R : relation A) (l : list A) p x y :
  Sorted R l -> l !! p = Some x -> l !! S p = Some y -> R x y.
Proof.
  intros Hs. revert p. induction Hs as [|a l Hs IH Hhd]; intros p Hp Hq.
  - discriminate.
  - destruct p as [|p]; simpl in *.
    + injection Hp as <-. destruct Hhd as [|b l Hab]; [discriminate |].
      simpl in Hq. now injection Hq as <-.
    + now apply (IH p).
Qed.

Lemma np_le_Fin (x y : Q) : np_le (Fin x) (Fin y) <-> (x <= y)%Q.
Proof. unfold np_le; simpl. apply Qltb_false. Qed.

Lemma np_take_Some {A} (a : list A) (idxs : list nat) :
  Forall (fun i => (i < length a)%nat) idxs ->
  exists l, np_take a idxs = Some l /\ Forall2 (fun i x => a !! i = Some x) idxs l.
Proof.
  intros Hall.
  destruct (mapM_is_Some_2 (fun i => a !! i) idxs) as [l Hl].
  - eapply Forall_impl; [exact Hall |]. intros i Hi. now apply lookup_lt_is_Some.
  - exists l. split; [exact Hl |]. now apply mapM_Some_1.
Qed.

Lemma is_argsort_Forall_range keys idxs :
  is_argsort keys idxs -> Forall (fun i => (i < length keys)%nat) idxs.
Proof.
  intros H. apply Forall_forall. intros i Hi.
  apply list_elem_of_lookup_1 in Hi as [p Hp].
  eapply is_argsort_range; eassumption.
Qed.

Lemma area_zero (ax : axis) (b : bounds) :
  (get ax (dimensions b) == 0)%Q -> area ax b = NaN.
Proof.
  intros H. unfold area, np_true_divide.
  assert (Hv : (np_prod (dimensions b) == 0)%Q).
  { unfold np_prod. destruct ax; simpl in H; rewrite H; ring. }
  apply Qeq_bool_iff in H. apply Qeq_bool_iff in Hv.
  now rewrite H, Hv.
Qed.

(** ** Claims about the ordering functions *)














(** C9. [argsort_by_area] divides the volume by the extent on the axis.  For
    a box with zero extent on the axis the volume is zero as well, the
    quotient is 0/0 and the key is not a number; a collection of at least two
    boxes that contains such a box cannot be put in non-decreasing key order
    by any permutation. *)
Theorem argsort_by_area_zero_extent :
  forall (bs : list bounds) (ax : axis) (b : bounds),
    b ∈ bs -> (get ax (dimensions b) == 0)%Q ->
    area ax b = NaN
    /\ ((2 <= length bs)%nat ->
        forall idxs, idxs ≡ₚ seq 0 (length bs) ->
                     ~ ieee_sorted (take_keys (area_keys bs ax) idxs)).
Proof.
  intros bs ax b Hb Hz. split; [now apply area_zero |].
  intros Hlen idxs Hp Hs.
  apply list_elem_of_lookup_1 in Hb as [k Hk].
  assert (Hkn : nth k (area_keys bs ax) NaN = NaN).
  { apply nth_lookup_Some. unfold area_keys.
    change (map ?f ?l) with (f <$> l).
    rewrite list_lookup_fmap, Hk. simpl. f_equal. now apply area_zero. }
  assert (Hkin : k ∈ idxs).
  { rewrite Hp. apply elem_of_seq. apply lookup_lt_Some in Hk. lia. }
  apply list_elem_of_lookup_1 in Hkin as [p Hpk].
  assert (Hlk : take_keys (area_keys bs ax) idxs !! p = Some NaN).
  { unfold take_keys. change (map ?f ?l) with (f <$> l).
    rewrite list_lookup_fmap, Hpk. simpl. now rewrite Hkn. }
  assert (Hl : length (take_keys (area_keys bs ax) idxs) = length bs).
  { unfold take_keys. rewrite length_map, Hp. apply length_seq. }
  destruct p as [|p].
  - destruct (lookup_lt_is_Some_2 (take_keys (area_keys bs ax) idxs) 1)
      as [y Hy]; [lia |].
    pose proof (Sorted_lookup_S _ _ _ _ _ Hs Hlk Hy) as Hle.
    simpl in Hle. discriminate.
  - destruct (lookup_lt_is_Some_2 (take_keys (area_keys bs ax) idxs) p)
      as [x Hx].
    { apply lookup_lt_Some in Hlk. lia. }
    pose proof (Sorted_lookup_S _ _ _ _ _ Hs Hx Hlk) as Hle.
    destruct x; simpl in Hle; discriminate.
Qed.

Lemma argsort_by_area_zero_extent_witness :
  Forall valid_bounds flat_boxes
  /\ area Ax2 (box 0 1 0 1 0 0) = NaN
  /\ ((2 <= length flat_boxes)%nat ->
      forall idxs, idxs ≡ₚ seq 0 (length flat_boxes) ->
                   ~ ieee_sorted (take_keys (area_keys flat_boxes Ax2) idxs)).
Proof.
  split.
  - repeat constructor; discriminate.
  - apply (argsort_by_area_zero_extent flat_boxes Ax2 (box 0 1 0 1 0 0)).
    + apply list_elem_of_here.
    + reflexivity.
Defined.

(** ** [np.argmax], [np.array_equal] and the selection of a surface *)

Lemma argmax_from_spec (l : list Q) :
  forall (pre : list Q) (best_i : nat) (best : Q),
    pre !! best_i = Some best ->
    (forall j y, pre !! j = Some y -> (y <= best)%Q) ->
    (forall j y, (j < best_i)%nat -> pre !! j = Some y -> (y < best)%Q) ->
    exists m,
      (pre ++ l) !! argmax_from best_i best (length pre) l = Some m
      /\ (forall j y, (pre ++ l) !! j = Some y -> (y <= m)%Q)
      /\ (forall j y, (j < argmax_from best_i best (length pre) l)%nat ->
                      (pre ++ l) !! j = Some y -> (y < m)%Q).
Proof.
  induction l as [|x l IH]; intros pre best_i best Hb Hmax Hfirst; simpl.
  - rewrite app_nil_r. exists best. auto.
  - assert (Hlen : length (pre ++ [x]) = S (length pre))
      by (rewrite length_app; simpl; lia).
    replace (pre ++ x :: l) with ((pre ++ [x]) ++ l)
      by (now rewrite <- app_assoc).
    rewrite <- Hlen.
    destruct (Qltb best x) eqn:E.
    + apply Qltb_lt in E.
      replace (length pre) with (length pre + 0)%nat at 1 by lia.
      replace (length pre + 0)%nat with (length pre) at 2 by lia.
      apply (IH (pre ++ [x]) (length pre) x).
      * rewrite lookup_app_r by lia. now rewrite Nat.sub_diag.
      * intros j y Hj. apply lookup_app_Some in Hj as [Hj | [_ Hj]].
        -- apply Qlt_le_weak. eapply Qle_lt_trans; [eapply Hmax|]; eassumption.
        -- apply list_lookup_singleton_Some in Hj as [_ <-]. apply Qle_refl.
      * intros j y Hj Hy. rewrite lookup_app_l in Hy by lia.
        eapply Qle_lt_trans; [eapply Hmax|]; eassumption.
    + apply Qltb_false in E.
      assert (Hbi : (best_i < length pre)%nat) by (eapply lookup_lt_Some; eauto).
      apply (IH (pre ++ [x]) best_i best).
      * now rewrite lookup_app_l.
      * intros j y Hj. apply lookup_app_Some in Hj as [Hj | [_ Hj]].
        -- eapply Hmax; eassumption.
        -- now apply list_lookup_singleton_Some in Hj as [_ <-].
      * intros j y Hj Hy. rewrite lookup_app_l in Hy by lia.
        eapply Hfirst; eassumption.
Qed.

(** [np.argmax] returns the first position at which the maximum is found. *)
Lemma np_argmax_spec (l : list Q) :
  l <> [] ->
  exists k m,
    np_argmax l = Some k /\ l !! k = Some m
    /\ (forall j y, l !! j = Some y -> (y <= m)%Q)
    /\ (forall j y, (j < k)%nat -> l !! j = Some y -> (y < m)%Q).
Proof.
  destruct l as [|x l]; [congruence |]. intros _.
  destruct (argmax_from_spec l [x] 0%nat x) as (m & Hm & Hmax & Hfirst).
  - reflexivity.
  - intros [|j] y Hj; simpl in Hj; [|discriminate].
    injection Hj as <-. apply Qle_refl.
  - intros j y Hj. lia.
  - exists (argmax_from 0 x 1 l), m. simpl in *. auto.
Qed.

Lemma select_spec (ax : axis) (cands : list bounds) :
  cands <> [] ->
  exists k target,
    select ax cands = Some (k, target) /\ cands !! k = Some target
    /\ (forall j c, cands !! j = Some c ->
                    (hi (get ax c) <= hi (get ax target))%Q)
    /\ (forall j c, (j < k)%nat -> cands !! j = Some c ->
                    (hi (get ax c) < hi (get ax target))%Q).
Proof.
  intros Hne.
  destruct (np_argmax_spec (map (fun c => hi (get ax c)) cands))
    as (k & m & Hk & Hm & Hmax & Hfirst).
  { destruct cands; [congruence | discriminate]. }
  change (map ?f ?l) with (f <$> l) in Hm, Hmax, Hfirst.
  rewrite list_lookup_fmap in Hm.
  apply fmap_Some in Hm as (target & Ht & ->).
  exists k, target. repeat split; trivial.
  - unfold select. apply bind_Some. exists k. split; [exact Hk |].
    apply bind_Some. exists target. split; [exact Ht | reflexivity].
  - intros j c Hc. apply (Hmax j). rewrite list_lookup_fmap.
    apply fmap_Some. exists c. split; [exact Hc | reflexivity].
  - intros j c Hj Hc. apply (Hfirst j); [assumption |].
    rewrite list_lookup_fmap.
    apply fmap_Some. exists c. split; [exact Hc | reflexivity].
Qed.

Lemma np_array_equal_refl (b : bounds) : np_array_equal b b = true.
Proof.
  unfold np_array_equal, all3, zip3, peqb; simpl.
  rewrite !(proj2 (Qeq_bool_iff _ _) (Qeq_refl _)). reflexivity.
Qed.

Lemma np_array_equal_hi (ax : axis) (b c : bounds) :
  np_array_equal b c = true -> (hi (get ax b) == hi (get ax c))%Q.
Proof.
  unfold np_array_equal, all3, zip3, peqb; simpl. intros H.
  apply andb_prop in H as [H H2]. apply andb_prop in H as [H0 H1].
  apply andb_prop in H0 as [_ H0]. apply andb_prop in H1 as [_ H1].
  apply andb_prop in H2 as [_ H2].
  destruct ax; simpl; now apply Qeq_bool_iff.
Qed.

(** The selected surface equals the floor exactly when it is the floor, the
    candidate at position 0. *)
Lemma select_floor_iff (ax : axis) (floor : bounds) (rest : list bounds) k target :
  select ax (floor :: rest) = Some (k, target) ->
  np_array_equal target floor = true <-> k = 0%nat.
Proof.
  intros Hsel.
  destruct (select_spec ax (floor :: rest)) as (k' & t' & Hs & Hk & _ & Hfirst);
    [discriminate |].
  rewrite Hsel in Hs. injection Hs as <- <-.
  split.
  - intros Heq. destruct k as [|k]; [reflexivity | exfalso].
    apply (np_array_equal_hi ax) in Heq.
    specialize (Hfirst 0%nat floor ltac:(lia) eq_refl).
    rewrite Heq in Hfirst. now apply Qlt_irrefl in Hfirst.
  - intros ->. simpl in Hk. injection Hk as <-. apply np_array_equal_refl.
Qed.

Lemma get_stack_above_other (target source : bounds) (ax ax' : axis) (padding : Q) :
  ax' <> ax ->
  (get ax' (stack_above target source ax padding false) == 0)%Q.
Proof.
  intros Hne. unfold stack_above, vsub.
  rewrite get_zip3, !get_set_other by assumption. ring.
Qed.

Lemma get_translation_other ax ax' padding floor target source :
  ax' <> ax ->
  (get ax' (translation ax padding floor target source) == 0)%Q.
Proof.
  intros Hne. unfold translation.
  destruct (negb _); [rewrite get_set_other by assumption |];
    now apply get_stack_above_other.
Qed.

(** What one iteration does, spelled out. *)
Lemma drop_step_inv ax padding floor processed i st st' :
  drop_step ax padding floor processed i st = Some st' ->
  exists source rest k target,
    st_bounds st !! i = Some source
    /\ candidates ax floor processed source (st_bounds st) = Some (floor :: rest)
    /\ select ax (floor :: rest) = Some (k, target)
    /\ st' = State (<[i := translate_bounds source
                             (translation ax padding floor target source)]>
                      (st_bounds st))
                   (<[i := translation ax padding floor target source]>
                      (st_output st)).
Proof.
  unfold drop_step. intros H.
  destruct (st_bounds st !! i) as [source|] eqn:Hs; [|discriminate].
  simpl in H.
  destruct (candidates ax floor processed source (st_bounds st))
    as [cands|] eqn:Hc; [|discriminate].
  simpl in H.
  destruct (select ax cands) as [[k target]|] eqn:Hsel; [|discriminate].
  simpl in H. injection H as <-.
  unfold candidates in Hc |- *.
  destruct (np_take (st_bounds st) processed) as [l|]; [|discriminate].
  simpl in Hc. injection Hc as <-.
  exists source, (List.filter (fun b => is_below b source ax) l), k, target.
  repeat split; trivial.
Qed.

(** ** Claims about one iteration of [drop_down] *)

(** C5. In an iteration of [drop_down], the component on the stacking axis
    of the translation stored for the processed box is the one [stack_above]
    computes without padding, plus the padding exactly when the selected
    surface is not the floor (the candidate at position 0); when the floor is
    selected nothing is added. *)
Theorem drop_step_padding :
  forall (ax : axis) (padding : Q) (floor : bounds) (processed : list nat)
         (i : nat) (st st' : state),
    length (st_output st) = length (st_bounds st) ->
    drop_step ax padding floor processed i st = Some st' ->
    exists source rest k target out,
      st_bounds st !! i = Some source
      /\ candidates ax floor processed source (st_bounds st)
         = Some (floor :: rest)
      /\ select ax (floor :: rest) = Some (k, target)
      /\ st_output st' !! i = Some out
      /\ (get ax out == get ax (stack_above target source ax 0 false)
                        + match k with O => 0 | S _ => padding end)%Q.
Proof.
  intros ax padding floor processed i st st' Hlen Hstep.
  destruct (drop_step_inv _ _ _ _ _ _ _ Hstep)
    as (source & rest & k & target & Hs & Hc & Hsel & ->).
  exists source, rest, k, target, (translation ax padding floor target source).
  repeat split; trivial.
  - simpl. apply list_lookup_insert_eq.
    apply lookup_lt_Some in Hs. unfold vec, bounds in *. lia.
  - pose proof (select_floor_iff ax floor rest k target Hsel) as Hiff.
    unfold translation.
    destruct (np_array_equal target floor) eqn:E; simpl.
    + rewrite (proj1 Hiff eq_refl). ring.
    + destruct k as [|k];
        [pose proof (proj2 Hiff eq_refl); discriminate |].
      rewrite get_set_same. reflexivity.
Qed.

Lemma drop_step_padding_witness :
  length (st_output (initial_state piled_boxes))
  = length (st_bounds (initial_state piled_boxes))
  /\ drop_step Ax2 1 (make_flat (box 0 1 0 1 0 1)) [0%nat] 1
               (initial_state piled_boxes) = Some piled_state
  /\ exists source rest k target out,
       st_bounds (initial_state piled_boxes) !! 1%nat = Some source
       /\ candidates Ax2 (make_flat (box 0 1 0 1 0 1)) [0%nat] source
                     (st_bounds (initial_state piled_boxes))
          = Some (make_flat (box 0 1 0 1 0 1) :: rest)
       /\ select Ax2 (make_flat (box 0 1 0 1 0 1) :: rest) = Some (k, target)
       /\ st_output piled_state !! 1%nat = Some out
       /\ (get Ax2 out == get Ax2 (stack_above target source Ax2 0 false)
                          + match k with O => 0 | S _ => 1 end)%Q.
Proof.
  split; [reflexivity |]. split; [reflexivity |].
  apply (drop_step_padding Ax2 1 (make_flat (box 0 1 0 1 0 1)) [0%nat] 1%nat
                           (initial_state piled_boxes) piled_state);
    reflexivity.
Defined.

(** C10. In an iteration of [drop_down] the floor is the first candidate and
    the selected surface is the first candidate whose upper bound on the axis
    is maximal; so when no candidate box reaches higher than the floor (a box
    whose top is exactly at floor height ties with the floor), the floor is
    selected and the translation is the one of [stack_above] onto the floor,
    without padding. *)
Theorem drop_step_floor_tie :
  forall (ax : axis) (padding : Q) (floor : bounds) (processed : list nat)
         (i : nat) (st st' : state),
    length (st_output st) = length (st_bounds st) ->
    drop_step ax padding floor processed i st = Some st' ->
    exists source rest k target out,
      st_bounds st !! i = Some source
      /\ candidates ax floor processed source (st_bounds st)
         = Some (floor :: rest)
      /\ select ax (floor :: rest) = Some (k, target)
      /\ st_output st' !! i = Some out
      /\ (forall j c, (floor :: rest) !! j = Some c ->
            (hi (get ax c) <= hi (get ax target))%Q)
      /\ (forall j c, (j < k)%nat -> (floor :: rest) !! j = Some c ->
            (hi (get ax c) < hi (get ax target))%Q)
      /\ ((forall c, c ∈ rest -> (hi (get ax c) <= hi (get ax floor))%Q) ->
          k = 0%nat /\ target = floor
          /\ out = stack_above floor source ax 0 false).
Proof.
  intros ax padding floor processed i st st' Hlen Hstep.
  destruct (drop_step_inv _ _ _ _ _ _ _ Hstep)
    as (source & rest & k & target & Hs & Hc & Hsel & ->).
  exists source, rest, k, target, (translation ax padding floor target source).
  destruct (select_spec ax (floor :: rest))
    as (k' & t' & Hs' & Hk & Hmax & Hfirst); [discriminate |].
  rewrite Hsel in Hs'. injection Hs' as <- <-.
  repeat split; trivial.
  - simpl. apply list_lookup_insert_eq.
    apply lookup_lt_Some in Hs. unfold vec, bounds in *. lia.
  - destruct k as [|k]; [reflexivity | exfalso].
    specialize (Hfirst 0%nat floor ltac:(lia) eq_refl).
    simpl in Hk. apply list_elem_of_lookup_2 in Hk.
    apply H in Hk. apply Qle_not_lt in Hk. contradiction.
  - destruct k as [|k]; [simpl in Hk; congruence | exfalso].
    specialize (Hfirst 0%nat floor ltac:(lia) eq_refl).
    simpl in Hk. apply list_elem_of_lookup_2 in Hk.
    apply H in Hk. apply Qle_not_lt in Hk. contradiction.
  - assert (Ht : target = floor).
    { destruct k as [|k]; [simpl in Hk; congruence | exfalso].
      specialize (Hfirst 0%nat floor ltac:(lia) eq_refl).
      simpl in Hk. apply list_elem_of_lookup_2 in Hk.
      apply H in Hk. apply Qle_not_lt in Hk. contradiction. }
    subst target. unfold translation.
    now rewrite np_array_equal_refl.
Qed.

Lemma drop_step_floor_tie_witness :
  length (st_output (initial_state flat_boxes))
  = length (st_bounds (initial_state flat_boxes))
  /\ drop_step Ax2 1 (make_flat (box 0 1 0 1 0 0)) [0%nat] 1
               (initial_state flat_boxes) = Some flat_state
  /\ exists source rest k target out,
       st_bounds (initial_state flat_boxes) !! 1%nat = Some source
       /\ candidates Ax2 (make_flat (box 0 1 0 1 0 0)) [0%nat] source
                     (st_bounds (initial_state flat_boxes))
          = Some (make_flat (box 0 1 0 1 0 0) :: rest)
       /\ select Ax2 (make_flat (box 0 1 0 1 0 0) :: rest) = Some (k, target)
       /\ st_output flat_state !! 1%nat = Some out
       /\ (forall j c, (make_flat (box 0 1 0 1 0 0) :: rest) !! j = Some c ->
             (hi (get Ax2 c) <= hi (get Ax2 target))%Q)
       /\ (forall j c, (j < k)%nat ->
             (make_flat (box 0 1 0 1 0 0) :: rest) !! j = Some c ->
             (hi (get Ax2 c) < hi (get Ax2 target))%Q)
       /\ ((forall c, c ∈ rest ->
              (hi (get Ax2 c) <= hi (get Ax2 (make_flat (box 0 1 0 1 0 0))))%Q) ->
           k = 0%nat /\ target = make_flat (box 0 1 0 1 0 0)
           /\ out = stack_above (make_flat (box 0 1 0 1 0 0)) source Ax2 0 false).
Proof.
  split; [reflexivity |]. split; [reflexivity |].
  apply (drop_step_floor_tie Ax2 1 (make_flat (box 0 1 0 1 0 0)) [0%nat] 1%nat
                             (initial_state flat_boxes) flat_state);
    reflexivity.
Defined.

(** ** The loop of [drop_down] *)

Lemma beq_refl (b : bounds) : beq b b.
Proof. unfold beq, peq. repeat split; reflexivity. Qed.

Lemma beq_translate_zero (b : bounds) : beq b (translate_bounds b vzero).
Proof.
  apply beq_get. intros ax. rewrite get_translate_bounds.
  unfold peq, lo, hi; simpl. destruct ax; simpl; split; ring.
Qed.

Lemma get_vzero (ax : axis) : (get ax vzero == 0)%Q.
Proof. destruct ax; reflexivity. Qed.

Lemma candidates_Some ax floor processed source (bs : list bounds) :
  Forall (fun j => (j < length bs)%nat) processed ->
  exists rest, candidates ax floor processed source bs = Some (floor :: rest).
Proof.
  intros Hp. destruct (np_take_Some bs processed Hp) as (l & Hl & _).
  exists (List.filter (fun b => is_below b source ax) l).
  unfold candidates. now rewrite Hl.
Qed.

(** An iteration on an index in range succeeds and keeps the invariant. *)
Lemma drop_step_preserves bs ax padding floor processed i0 i todo st :
  NoDup (i0 :: i :: todo) ->
  (i < length bs)%nat ->
  Forall (fun j => (j < length bs)%nat) processed ->
  loop_inv bs ax (i0 :: i :: todo) st ->
  exists st', drop_step ax padding floor processed i st = Some st'
              /\ loop_inv bs ax (i0 :: todo) st'.
Proof.
  intros Hnd Hi Hp (Hlb & Hlo & Hpend & Hzero & Halign).
  assert (Hi_pending : i ∈ i0 :: i :: todo) by (right; left).
  destruct (Hpend i Hi_pending) as [Hbi Hoi]. specialize (Hoi Hi).
  destruct (lookup_lt_is_Some_2 bs i Hi) as [b Hb].
  rewrite Hb in Hbi.
  destruct (candidates_Some ax floor processed b (st_bounds st))
    as [rest Hc]; [now rewrite Hlb |].
  destruct (select_spec ax (floor :: rest))
    as (k & target & Hsel & _); [discriminate |].
  eexists. split.
  { unfold drop_step. rewrite Hbi. simpl. rewrite Hc. simpl.
    rewrite Hsel. simpl. reflexivity. }
  assert (Hne : forall j, j ∈ i0 :: todo -> i <> j).
  { intros j Hj ->. apply NoDup_cons in Hnd as [Hn0 Hnd].
    apply NoDup_cons in Hnd as [Hn1 _].
    apply elem_of_cons in Hj as [-> | Hj]; [apply Hn0; left | ]; tauto. }
  repeat split; simpl.
  - now rewrite length_insert.
  - now rewrite length_insert.
  - rewrite list_lookup_insert_ne by now apply Hne.
    apply Hpend. apply elem_of_cons in H as [-> | H]; [left | right; right];
      tauto.
  - intros Hj. rewrite list_lookup_insert_ne by now apply Hne.
    apply Hpend; [| assumption].
    apply elem_of_cons in H as [-> | H]; [left | right; right]; tauto.
  - intros j v ax' Hv Hax. destruct (decide (i = j)) as [<- | Hij].
    + rewrite list_lookup_insert_eq in Hv
        by (unfold vec, bounds in *; lia).
      injection Hv as <-. now apply get_translation_other.
    + rewrite list_lookup_insert_ne in Hv by assumption.
      eapply Hzero; eassumption.
  - intros j c v Hc' Hv. destruct (decide (i = j)) as [<- | Hij].
    + rewrite list_lookup_insert_eq in Hv
        by (unfold vec, bounds in *; lia).
      injection Hv as <-.
      rewrite Hb in Hc'. injection Hc' as <-.
      eexists. split; [| apply beq_refl].
      apply list_lookup_insert_eq. unfold vec, bounds in *; lia.
    + rewrite list_lookup_insert_ne in Hv by assumption.
      rewrite list_lookup_insert_ne by assumption.
      eapply Halign; eassumption.
Qed.

Lemma drop_loop_preserves bs ax padding floor i0 todo :
  forall processed st,
    NoDup (i0 :: todo) ->
    Forall (fun j => (j < length bs)%nat) todo ->
    Forall (fun j => (j < length bs)%nat) processed ->
    loop_inv bs ax (i0 :: todo) st ->
    exists st', drop_loop ax padding floor processed todo st = Some st'
                /\ loop_inv bs ax [i0] st'.
Proof.
  induction todo as [|i todo IH]; intros processed st Hnd Ht Hp Hinv; simpl.
  - exists st. split; [reflexivity | assumption].
  - apply Forall_cons in Ht as [Hi Ht].
    destruct (drop_step_preserves bs ax padding floor processed i0 i todo st)
      as (st1 & Hstep & Hinv1); try assumption.
    rewrite Hstep. simpl. apply IH; try assumption.
    + apply NoDup_cons in Hnd as [Hn0 Hnd]. apply NoDup_cons in Hnd as [_ Hnd].
      apply NoDup_cons. split; [| assumption].
      intros Hin. apply Hn0. now right.
    + apply Forall_app. split; [assumption |]. now repeat constructor.
Qed.

Lemma initial_state_inv bs ax pending : loop_inv bs ax pending (initial_state bs).
Proof.
  unfold loop_inv, initial_state; simpl. repeat split.
  - apply length_replicate.
  - intros Hi. now apply lookup_replicate_2.
  - intros i v ax' Hv _. apply lookup_replicate in Hv as [-> _].
    apply get_vzero.
  - intros i b v Hb Hv. apply lookup_replicate in Hv as [-> _].
    exists b. split; [assumption | apply beq_translate_zero].
Qed.

(** ** Already sorted keys *)

Lemma StronglySorted_of_lookup {A} (R : relation A) (l : list A) :
  (forall p q x y, (p < q)%nat -> l !! p = Some x -> l !! q = Some y -> R x y) ->
  StronglySorted R l.
Proof.
  induction l as [|a l IH]; intros H; constructor.
  - apply IH. intros p q x y Hpq Hp Hq. apply (H (S p) (S q)); [lia | easy..].
  - apply Forall_forall. intros y Hy.
    apply list_elem_of_lookup_1 in Hy as [q Hq].
    apply (H 0%nat (S q)); [lia | easy..].
Qed.

#[local] Instance nat_lt_antisym : AntiSymm (=) Nat.lt.
Proof. intros x y Hxy Hyx. lia. Qed.

(** When the keys are strictly increasing already, the promise of
    [np.argsort] leaves one result only, the identity. *)
Lemma is_argsort_increasing (keys : list npfloat) (idxs : list nat) :
  (forall i j, (i < j)%nat -> (j < length keys)%nat ->
               np_lt (nth i keys NaN) (nth j keys NaN) = true) ->
  is_argsort keys idxs -> idxs = seq 0 (length keys).
Proof.
  intros Hinc H. pose proof H as [Hp _].
  apply (StronglySorted_unique Nat.lt); [| | exact Hp].
  - apply StronglySorted_of_lookup. intros p q i j Hpq Hi Hj.
    pose proof (is_argsort_le keys idxs p q i j H Hpq Hi Hj) as Hle.
    destruct (Nat.lt_trichotomy i j) as [Hij | [-> | Hji]]; [assumption | |].
    + pose proof (NoDup_lookup idxs p q j (is_argsort_NoDup _ _ H) Hi Hj). lia.
    + unfold np_le in Hle. rewrite Hinc in Hle; [discriminate | assumption |].
      eapply is_argsort_range; eassumption.
  - apply StronglySorted_of_lookup. intros p q x y Hpq Hx Hy.
    apply lookup_seq in Hx as [-> _]. apply lookup_seq in Hy as [-> _].
    unfold Nat.lt. lia.
Qed.

(** ** Claims about [drop_down] *)

(** C6. On a non-empty collection, when [np.argsort] keeps its promise,
    [drop_down] returns an array with one translation per input box; the
    translation stored at an index is the one of the input box of that index
    (it takes that input box to its final place in the working copy); the
    box first in sorted order gets the zero vector; and every translation is
    zero on the two axes other than the stacking axis. *)
Theorem drop_down_output_shape :
  forall (np_argsort : list npfloat -> list nat) (bs : list bounds)
         (ax : axis) (padding : Q),
    bs <> [] ->
    is_argsort (height_keys bs ax) (np_argsort (height_keys bs ax)) ->
    exists st i0,
      drop_down_state np_argsort bs ax padding = Some st
      /\ drop_down np_argsort bs ax padding = Some (st_output st)
      /\ length (st_output st) = length bs
      /\ head (argsort_by_height np_argsort bs ax) = Some i0
      /\ st_output st !! i0 = Some vzero
      /\ (forall i v ax', st_output st !! i = Some v -> ax' <> ax ->
            (get ax' v == 0)%Q)
      /\ (forall i b v, bs !! i = Some b -> st_output st !! i = Some v ->
            exists b', st_bounds st !! i = Some b'
                       /\ beq b' (translate_bounds b v)).
Proof.
  intros np_argsort bs ax padding Hne H.
  assert (Hn : length (height_keys bs ax) = length bs)
    by (unfold height_keys; apply length_map).
  pose proof (is_argsort_NoDup _ _ H) as Hnd.
  pose proof (is_argsort_Forall_range _ _ H) as Hr. rewrite Hn in Hr.
  pose proof (is_argsort_length _ _ H) as Hl. rewrite Hn in Hl.
  fold (argsort_by_height np_argsort bs ax) in Hnd, Hr, Hl.
  destruct (argsort_by_height np_argsort bs ax) as [|i0 todo] eqn:E.
  { destruct bs; [congruence | discriminate]. }
  apply Forall_cons in Hr as [Hi0 Hr].
  destruct (lookup_lt_is_Some_2 bs i0 Hi0) as [b0 Hb0].
  destruct (drop_loop_preserves bs ax padding (make_flat b0) i0 todo [i0]
              (initial_state bs))
    as (st & Hloop & Hinv); try assumption.
  { now repeat constructor. }
  { apply initial_state_inv. }
  assert (Hst : drop_down_state np_argsort bs ax padding = Some st).
  { unfold drop_down_state. rewrite E. simpl. rewrite Hb0. simpl.
    exact Hloop. }
  destruct Hinv as (Hlb & Hlo & Hpend & Hzero & Halign).
  exists st, i0. repeat split; try assumption.
  - unfold drop_down. now rewrite Hst.
  - apply Hpend; [left | assumption].
Qed.

Lemma drop_down_output_shape_witness :
  unordered_boxes <> []
  /\ is_argsort (height_keys unordered_boxes Ax2)
                (quicksort_argsort (height_keys unordered_boxes Ax2))
  /\ exists st i0,
       drop_down_state quicksort_argsort unordered_boxes Ax2 1 = Some st
       /\ drop_down quicksort_argsort unordered_boxes Ax2 1
          = Some (st_output st)
       /\ length (st_output st) = length unordered_boxes
       /\ head (argsort_by_height quicksort_argsort unordered_boxes Ax2)
          = Some i0
       /\ st_output st !! i0 = Some vzero
       /\ (forall i v ax', st_output st !! i = Some v -> ax' <> Ax2 ->
             (get ax' v == 0)%Q)
       /\ (forall i b v, unordered_boxes !! i = Some b ->
             st_output st !! i = Some v ->
             exists b', st_bounds st !! i = Some b'
                        /\ beq b' (translate_bounds b v)).
Proof.
  split; [discriminate |].
  split; [apply argsort_okb_sound; reflexivity |].
  apply (drop_down_output_shape quicksort_argsort unordered_boxes Ax2 1).
  - discriminate.
  - apply argsort_okb_sound. reflexivity.
Defined.

(** C2. Whenever [np.argsort] keeps its promise, [drop_down] on the two
    literal collections, along the last axis and without padding, returns
    [[0,0,0],[0,0,-1],[0,0,-3]] and [[0,0,0],[0,0,-2],[0,0,-2]]. *)
Theorem drop_down_literal :
  forall np_argsort : list npfloat -> list nat,
    is_argsort (height_keys above_boxes Ax2)
               (np_argsort (height_keys above_boxes Ax2)) ->
    is_argsort (height_keys apart_boxes Ax2)
               (np_argsort (height_keys apart_boxes Ax2)) ->
    out_eq (drop_down np_argsort above_boxes Ax2 0)
           [vecZ 0 0 0; vecZ 0 0 (-1); vecZ 0 0 (-3)]
    /\ out_eq (drop_down np_argsort apart_boxes Ax2 0)
              [vecZ 0 0 0; vecZ 0 0 (-2); vecZ 0 0 (-2)].
Proof.
  intros np_argsort H1 H2.
  apply is_argsort_increasing in H1.
  2:{ intros [|[|[|i]]] [|[|[|j]]] Hij Hj; simpl in Hj; try lia; reflexivity. }
  apply is_argsort_increasing in H2.
  2:{ intros [|[|[|i]]] [|[|[|j]]] Hij Hj; simpl in Hj; try lia; reflexivity. }
  unfold out_eq, drop_down, drop_down_state, argsort_by_height.
  rewrite H1, H2. split.
  - eexists. split; [vm_compute; reflexivity |].
    repeat constructor; reflexivity.
  - eexists. split; [vm_compute; reflexivity |].
    repeat constructor; reflexivity.
Qed.

Lemma drop_down_literal_witness :
  out_eq (drop_down quicksort_argsort above_boxes Ax2 0)
         [vecZ 0 0 0; vecZ 0 0 (-1); vecZ 0 0 (-3)]
  /\ out_eq (drop_down quicksort_argsort apart_boxes Ax2 0)
            [vecZ 0 0 0; vecZ 0 0 (-2); vecZ 0 0 (-2)].
Proof.
  apply (drop_down_literal quicksort_argsort);
    apply argsort_okb_sound; reflexivity.
Defined.

(** ** Further properties of the pairwise geometry *)

#[local] Instance axis_eq_dec : EqDecision axis.
Proof. solve_decision. Defined.

(** What [is_below] tests, in terms of the bounds. *)
Lemma is_below_true_iff :
  forall (a b : bounds) (ax : axis),
    is_below a b ax = true
    <-> (forall ax', ax' <> ax ->
           (lo (get ax' b) < hi (get ax' a) /\ lo (get ax' a) < hi (get ax' b))%Q)
        /\ (lo (get ax a) <= hi (get ax b))%Q.
Proof.
  intros a b ax. unfold is_below, all3, Qgtb.
  split.
  - intros H. destruct ax; simpl in H;
      repeat (apply andb_prop in H; destruct H as [H ?]);
      repeat match goal with
        | X : (_ || _)%bool = true |- _ =>
            apply orb_prop in X; destruct X as [X | X];
            apply andb_prop in X; destruct X
        | X : Qltb _ _ = true |- _ => apply Qltb_lt in X
        | X : Qgeb _ _ = true |- _ => apply Qgeb_ge in X
        end;
      (split; [intros [] Hne; try congruence; simpl; split; assumption
              | simpl; assumption]).
  - intros [Hh Hv].
    assert (G : forall ax', ax' <> ax ->
                Qltb (lo (get ax' b)) (hi (get ax' a)) = true
                /\ Qltb (lo (get ax' a)) (hi (get ax' b)) = true).
    { intros ax' Hne. destruct (Hh ax' Hne). split; now apply Qltb_lt. }
    apply Qgeb_ge in Hv.
    pose proof (G Ax0) as G0. pose proof (G Ax1) as G1. pose proof (G Ax2) as G2.
    clear G Hh.
    destruct ax; simpl in *;
      repeat match goal with
        | X : ?x <> ?x -> _ |- _ => clear X
        | X : _ <> _ -> _ /\ _ |- _ => destruct X as [? ?]; [discriminate |]
        end;
      repeat match goal with
        | X : Qltb _ _ = true |- _ => rewrite X; clear X
        end;
      rewrite ?Hv; reflexivity.
Qed.

(** X4. Of two boxes that overlap on both horizontal axes and satisfy
    min <= max on the stacking axis, at least one is below the other. *)
Theorem is_below_one_way_or_other :
  forall (a b : bounds) (ax : axis),
    valid_on ax a -> valid_on ax b ->
    (forall ax', ax' <> ax ->
       (lo (get ax' b) < hi (get ax' a) /\ lo (get ax' a) < hi (get ax' b))%Q) ->
    is_below a b ax = true \/ is_below b a ax = true.
Proof.
  intros a b ax Ha Hb Hh. unfold valid_on in *.
  destruct (Qlt_le_dec (hi (get ax b)) (lo (get ax a))) as [Hlt | Hle].
  - right. apply is_below_true_iff. split.
    + intros ax' Hne. destruct (Hh ax' Hne). split; assumption.
    + lra.
  - left. apply is_below_true_iff. split; assumption.
Qed.

Lemma is_below_one_way_or_other_witness :
  valid_on Ax2 (box 1 3 1 3 1 3) /\ valid_on Ax2 (box 2 3 2 4 4 5)
  /\ (is_below (box 1 3 1 3 1 3) (box 2 3 2 4 4 5) Ax2 = true
      \/ is_below (box 2 3 2 4 4 5) (box 1 3 1 3 1 3) Ax2 = true).
Proof.
  split; [unfold valid_on; simpl; discriminate |].
  split; [unfold valid_on; simpl; discriminate |].
  apply (is_below_one_way_or_other (box 1 3 1 3 1 3) (box 2 3 2 4 4 5) Ax2).
  - unfold valid_on; simpl; discriminate.
  - unfold valid_on; simpl; discriminate.
  - intros [] Hne; try congruence; simpl; split; reflexivity.
Defined.

(** X5. Raising the upper box or lowering the lower one along the stacking
    axis never takes a box out of the other's shadow. *)
Theorem is_below_monotone :
  forall (a b : bounds) (ax : axis) (s t : Q),
    (0 <= s)%Q -> (0 <= t)%Q ->
    is_below a b ax = true ->
    is_below (translate_bounds a (along ax (- s)))
             (translate_bounds b (along ax t)) ax = true.
Proof.
  intros a b ax s t Hs Ht H.
  apply is_below_true_iff in H as [Hh Hv].
  apply is_below_true_iff. split.
  - intros ax' Hne. specialize (Hh ax' Hne).
    rewrite !get_translate_bounds. unfold along.
    rewrite !get_set_other by assumption. rewrite get_vzero.
    unfold lo, hi in *; simpl. lra.
  - rewrite !get_translate_bounds. unfold along. rewrite !get_set_same.
    unfold lo, hi in *; simpl. lra.
Qed.

Lemma is_below_monotone_witness :
  (0 <= 1)%Q /\ (0 <= 2)%Q
  /\ is_below (box 2 3 2 4 2 3) (box 2 3 2 4 4 5) Ax2 = true
  /\ is_below (translate_bounds (box 2 3 2 4 2 3) (along Ax2 (- 1)))
              (translate_bounds (box 2 3 2 4 4 5) (along Ax2 2)) Ax2 = true.
Proof.
  split; [discriminate |]. split; [discriminate |]. split; [reflexivity |].
  apply (is_below_monotone (box 2 3 2 4 2 3) (box 2 3 2 4 4 5) Ax2 1 2);
    [discriminate | discriminate | reflexivity].
Defined.

(** ** [get_base] *)

Lemma argmin_from_spec (l : list Q) :
  forall (pre : list Q) (best_i : nat) (best : Q),
    pre !! best_i = Some best ->
    (forall j y, pre !! j = Some y -> (best <= y)%Q) ->
    (forall j y, (j < best_i)%nat -> pre !! j = Some y -> (best < y)%Q) ->
    exists m,
      (pre ++ l) !! argmin_from best_i best (length pre) l = Some m
      /\ (forall j y, (pre ++ l) !! j = Some y -> (m <= y)%Q)
      /\ (forall j y, (j < argmin_from best_i best (length pre) l)%nat ->
                      (pre ++ l) !! j = Some y -> (m < y)%Q).
Proof.
  induction l as [|x l IH]; intros pre best_i best Hb Hmin Hfirst; simpl.
  - rewrite app_nil_r. exists best. auto.
  - assert (Hlen : length (pre ++ [x]) = S (length pre))
      by (rewrite length_app; simpl; lia).
    replace (pre ++ x :: l) with ((pre ++ [x]) ++ l)
      by (now rewrite <- app_assoc).
    rewrite <- Hlen.
    destruct (Qltb x best) eqn:E.
    + apply Qltb_lt in E.
      replace (length pre) with (length pre + 0)%nat at 1 by lia.
      replace (length pre + 0)%nat with (length pre) at 2 by lia.
      apply (IH (pre ++ [x]) (length pre) x).
      * rewrite lookup_app_r by lia. now rewrite Nat.sub_diag.
      * intros j y Hj. apply lookup_app_Some in Hj as [Hj | [_ Hj]].
        -- apply Qlt_le_weak. eapply Qlt_le_trans; [exact E |].
           eapply Hmin; eassumption.
        -- apply list_lookup_singleton_Some in Hj as [_ <-]. apply Qle_refl.
      * intros j y Hj Hy. rewrite lookup_app_l in Hy by lia.
        eapply Qlt_le_trans; [exact E |]. eapply Hmin; eassumption.
    + apply Qltb_false in E.
      assert (Hbi : (best_i < length pre)%nat) by (eapply lookup_lt_Some; eauto).
      apply (IH (pre ++ [x]) best_i best).
      * now rewrite lookup_app_l.
      * intros j y Hj. apply lookup_app_Some in Hj as [Hj | [_ Hj]].
        -- eapply Hmin; eassumption.
        -- now apply list_lookup_singleton_Some in Hj as [_ <-].
      * intros j y Hj Hy. rewrite lookup_app_l in Hy by lia.
        eapply Hfirst; eassumption.
Qed.

Lemma np_argmin_spec (l : list Q) :
  l <> [] ->
  exists k m,
    np_argmin l = Some k /\ l !! k = Some m
    /\ (forall j y, l !! j = Some y -> (m <= y)%Q)
    /\ (forall j y, (j < k)%nat -> l !! j = Some y -> (m < y)%Q).
Proof.
  destruct l as [|x l]; [congruence |]. intros _.
  destruct (argmin_from_spec l [x] 0%nat x) as (m & Hm & Hmin & Hfirst).
  - reflexivity.
  - intros [|j] y Hj; simpl in Hj; [|discriminate].
    injection Hj as <-. apply Qle_refl.
  - intros j y Hj. lia.
  - exists (argmin_from 0 x 1 l), m. simpl in *. auto.
Qed.

Lemma get_base_min (bs : list bounds) (ax : axis) :
  bs <> [] ->
  exists k g,
    get_base bs ax = Some g /\ bs !! k = Some g
    /\ (forall j c, bs !! j = Some c -> (lo (get ax g) <= lo (get ax c))%Q).
Proof.
  intros Hne.
  destruct (np_argmin_spec (map (fun b => lo (get ax b)) bs))
    as (k & m & Hk & Hm & Hmin & _).
  { destruct bs; [congruence | discriminate]. }
  change (map ?f ?l) with (f <$> l) in Hm, Hmin.
  rewrite list_lookup_fmap in Hm.
  apply fmap_Some in Hm as (g & Hg & ->).
  exists k, g. split; [| split; [exact Hg |]].
  - unfold get_base. apply bind_Some. exists k. split; [exact Hk | exact Hg].
  - intros j c Hc. apply (Hmin j). rewrite list_lookup_fmap.
    apply fmap_Some. exists c. split; [exact Hc | reflexivity].
Qed.

(** X6. On a non-empty collection [get_base] returns a box of the collection
    whose lower bound on the axis is minimal, and the first such box: every
    box before it has a strictly larger lower bound. *)
Theorem get_base_first_minimum :
  forall (bs : list bounds) (ax : axis),
    bs <> [] ->
    exists k b,
      get_base bs ax = Some b /\ bs !! k = Some b
      /\ (forall j c, bs !! j = Some c ->
            (lo (get ax b) <= lo (get ax c))%Q)
      /\ (forall j c, (j < k)%nat -> bs !! j = Some c ->
            (lo (get ax b) < lo (get ax c))%Q).
Proof.
  intros bs ax Hne.
  destruct (np_argmin_spec (map (fun b => lo (get ax b)) bs))
    as (k & m & Hk & Hm & Hmin & Hfirst).
  { destruct bs; [congruence | discriminate]. }
  change (map ?f ?l) with (f <$> l) in Hm, Hmin, Hfirst.
  rewrite list_lookup_fmap in Hm.
  apply fmap_Some in Hm as (b & Hb & ->).
  exists k, b. repeat split; trivial.
  - unfold get_base. apply bind_Some. exists k. split; [exact Hk | exact Hb].
  - intros j c Hc. apply (Hmin j). rewrite list_lookup_fmap.
    apply fmap_Some. exists c. split; [exact Hc | reflexivity].
  - intros j c Hj Hc. apply (Hfirst j); [assumption |].
    rewrite list_lookup_fmap.
    apply fmap_Some. exists c. split; [exact Hc | reflexivity].
Qed.

Lemma get_base_first_minimum_witness :
  [box 1 3 1 3 1 3; box 1 3 3 4 2 3; box 1 2 3 4 3 4; box 1 2 3 7 0 4] <> []
  /\ exists k b,
       get_base [box 1 3 1 3 1 3; box 1 3 3 4 2 3; box 1 2 3 4 3 4;
                 box 1 2 3 7 0 4] Ax2 = Some b
       /\ [box 1 3 1 3 1 3; box 1 3 3 4 2 3; box 1 2 3 4 3 4;
           box 1 2 3 7 0 4] !! k = Some b
       /\ (forall j c,
             [box 1 3 1 3 1 3; box 1 3 3 4 2 3; box 1 2 3 4 3 4;
              box 1 2 3 7 0 4] !! j = Some c ->
             (lo (get Ax2 b) <= lo (get Ax2 c))%Q)
       /\ (forall j c, (j < k)%nat ->
             [box 1 3 1 3 1 3; box 1 3 3 4 2 3; box 1 2 3 4 3 4;
              box 1 2 3 7 0 4] !! j = Some c ->
             (lo (get Ax2 b) < lo (get Ax2 c))%Q).
Proof.
  split; [discriminate |].
  apply (get_base_first_minimum
           [box 1 3 1 3 1 3; box 1 3 3 4 2 3; box 1 2 3 4 3 4;
            box 1 2 3 7 0 4] Ax2).
  discriminate.
Defined.

Lemma is_argsort_head_min keys i0 rest j :
  is_argsort keys (i0 :: rest) -> (j < length keys)%nat ->
  np_le (nth i0 keys NaN) (nth j keys NaN).
Proof.
  intros H Hj. destruct (is_argsort_lookup keys _ j H Hj) as [[|q] Hq].
  - simpl in Hq. injection Hq as ->. unfold np_le. apply np_lt_irrefl.
  - apply (is_argsort_le keys (i0 :: rest) 0%nat (S q) i0 j H);
      [lia | reflexivity | exact Hq].
Qed.

Lemma nth_height_keys bs ax i b :
  bs !! i = Some b -> nth i (height_keys bs ax) NaN = Fin (lo (get ax b)).
Proof.
  intros Hb. apply nth_lookup_Some. unfold height_keys.
  change (map ?f ?l) with (f <$> l). rewrite list_lookup_fmap.
  apply fmap_Some. exists b. split; [exact Hb | reflexivity].
Qed.

(** X7. The floor of [drop_down] is at the lower bound of [get_base]: the
    box first in [argsort_by_height] order and the box [get_base] returns
    have the same lower bound on the axis, and the floor is flat at it. *)
Theorem drop_down_floor_is_base :
  forall (np_argsort : list npfloat -> list nat) (bs : list bounds) (ax : axis),
    bs <> [] ->
    is_argsort (height_keys bs ax) (np_argsort (height_keys bs ax)) ->
    exists i0 b0 g,
      head (argsort_by_height np_argsort bs ax) = Some i0
      /\ bs !! i0 = Some b0
      /\ get_base bs ax = Some g
      /\ (lo (get ax b0) == lo (get ax g))%Q
      /\ (lo (get ax (make_flat b0)) == lo (get ax g))%Q
      /\ (hi (get ax (make_flat b0)) == lo (get ax g))%Q.
Proof.
  intros np_argsort bs ax Hne H.
  assert (Hn : length (height_keys bs ax) = length bs)
    by (unfold height_keys; apply length_map).
  pose proof (is_argsort_Forall_range _ _ H) as Hr. rewrite Hn in Hr.
  pose proof (is_argsort_length _ _ H) as Hl. rewrite Hn in Hl.
  unfold argsort_by_height.
  destruct (np_argsort (height_keys bs ax)) as [|i0 rest] eqn:E.
  { destruct bs; [congruence | discriminate]. }
  apply Forall_cons in Hr as [Hi0 _].
  destruct (lookup_lt_is_Some_2 bs i0 Hi0) as [b0 Hb0].
  destruct (get_base_min bs ax Hne) as (k & g & Hg & Hk & Hmin).
  assert (Heq : (lo (get ax b0) == lo (get ax g))%Q).
  { apply Qle_antisym; [| eapply Hmin; eassumption].
    pose proof (is_argsort_head_min _ i0 rest k H) as Hle.
    rewrite Hn in Hle. specialize (Hle ltac:(eapply lookup_lt_Some; eauto)).
    rewrite (nth_height_keys bs ax i0 b0 Hb0) in Hle.
    rewrite (nth_height_keys bs ax k g Hk) in Hle.
    now apply np_le_Fin in Hle. }
  exists i0, b0, g. repeat split; trivial;
    unfold make_flat; rewrite get_map3; exact Heq.
Qed.

Lemma drop_down_floor_is_base_witness :
  unordered_boxes <> []
  /\ is_argsort (height_keys unordered_boxes Ax2)
                (quicksort_argsort (height_keys unordered_boxes Ax2))
  /\ exists i0 b0 g,
       head (argsort_by_height quicksort_argsort unordered_boxes Ax2) = Some i0
       /\ unordered_boxes !! i0 = Some b0
       /\ get_base unordered_boxes Ax2 = Some g
       /\ (lo (get Ax2 b0) == lo (get Ax2 g))%Q
       /\ (lo (get Ax2 (make_flat b0)) == lo (get Ax2 g))%Q
       /\ (hi (get Ax2 (make_flat b0)) == lo (get Ax2 g))%Q.
Proof.
  split; [discriminate |].
  split; [apply argsort_okb_sound; reflexivity |].
  apply (drop_down_floor_is_base quicksort_argsort unordered_boxes Ax2).
  - discriminate.
  - apply argsort_okb_sound. reflexivity.
Defined.

(** ** The smallest collections *)

Lemma is_argsort_nil idxs : is_argsort [] idxs -> idxs = [].
Proof. intros [Hp _]. simpl in Hp. now apply Permutation_nil_r in Hp. Qed.

Lemma is_argsort_singleton k idxs : is_argsort [k] idxs -> idxs = [0%nat].
Proof. intros [Hp _]. simpl in Hp. now apply Permutation_singleton_r in Hp. Qed.

(** X10. The smallest collections: on an empty collection both [get_base]
    and [drop_down] raise; on a single box [drop_down] returns the zero
    translation for it. *)
Theorem drop_down_small_collections :
  forall (np_argsort : list npfloat -> list nat) (ax : axis) (padding : Q)
         (b : bounds),
    is_argsort (height_keys [] ax) (np_argsort (height_keys [] ax)) ->
    is_argsort (height_keys [b] ax) (np_argsort (height_keys [b] ax)) ->
    get_base [] ax = None
    /\ drop_down np_argsort [] ax padding = None
    /\ drop_down np_argsort [b] ax padding = Some [vzero].
Proof.
  intros np_argsort ax padding b H0 H1.
  apply is_argsort_nil in H0. apply is_argsort_singleton in H1.
  split; [reflexivity |].
  unfold drop_down, drop_down_state, argsort_by_height.
  rewrite H0, H1. split; reflexivity.
Qed.

Lemma drop_down_small_collections_witness :
  get_base [] Ax2 = None
  /\ drop_down quicksort_argsort [] Ax2 1 = None
  /\ drop_down quicksort_argsort [box 0 1 0 1 2 3] Ax2 1 = Some [vzero].
Proof.
  apply (drop_down_small_collections quicksort_argsort Ax2 1 (box 0 1 0 1 2 3));
    apply argsort_okb_sound; reflexivity.
Defined.

(** ** The operators of the add-on *)

Lemma filter_eq_singleton {O} `{EqDecision O} (l : list O) (a : O) :
  NoDup l -> a ∈ l -> filter (fun o => o = a) l = [a].
Proof.
  induction l as [|x l IH]; intros Hnd Hin.
  - now apply elem_of_nil in Hin.
  - apply NoDup_cons in Hnd as [Hx Hnd].
    destruct (decide (x = a)) as [-> | Hne].
    + rewrite filter_cons_True by reflexivity. f_equal.
      destruct (filter (fun o => o = a) l) as [|y t] eqn:E; [reflexivity |].
      assert (Hy : y ∈ filter (fun o => o = a) l) by (rewrite E; left).
      apply list_elem_of_filter in Hy as [-> Hy]. contradiction.
    + rewrite filter_cons_False by assumption.
      apply IH; [assumption |].
      apply elem_of_cons in Hin as [-> | Hin]; [congruence | assumption].
Qed.

Lemma Forall2_perm_l {A B} (P : A -> B -> Prop) (l1 l2 : list A) :
  l1 ≡ₚ l2 ->
  forall k1, Forall2 P l1 k1 -> exists k2, Forall2 P l2 k2 /\ k1 ≡ₚ k2.
Proof.
  induction 1 as [|x l1 l2 Hp IH|x y l|l1 l2 l3 H12 IH12 H23 IH23];
    intros k1 Hk.
  - apply Forall2_nil_inv_l in Hk as ->. exists []. split; constructor.
  - apply Forall2_cons_inv_l in Hk as (z & k' & Hz & Hk' & ->).
    destruct (IH k' Hk') as (k2 & Hk2 & Hperm).
    exists (z :: k2). split; [now constructor | now constructor].
  - apply Forall2_cons_inv_l in Hk as (z1 & k' & Hz1 & Hk' & ->).
    apply Forall2_cons_inv_l in Hk' as (z2 & k'' & Hz2 & Hk'' & ->).
    exists (z2 :: z1 :: k''). split; [repeat constructor; assumption |].
    apply Permutation_swap.
  - destruct (IH12 k1 Hk) as (k2 & Hk2 & Hp12).
    destruct (IH23 k2 Hk2) as (k3 & Hk3 & Hp23).
    exists k3. split; [assumption | now transitivity k2].
Qed.

Lemma np_take_seq {A} (l : list A) : np_take l (seq 0 (length l)) = Some l.
Proof.
  apply mapM_Some_2. apply Forall2_same_length_lookup. split.
  - apply length_seq.
  - intros i x y Hx Hy. apply lookup_seq in Hx as [-> _]. exact Hy.
Qed.

Lemma np_take_perm {A} (l : list A) (idxs : list nat) :
  idxs ≡ₚ seq 0 (length l) ->
  exists l', np_take l idxs = Some l' /\ l' ≡ₚ l
             /\ Forall2 (fun i x => l !! i = Some x) idxs l'.
Proof.
  intros Hp. symmetry in Hp.
  pose proof (mapM_Some_1 _ _ _ (np_take_seq l)) as Hf.
  destruct (Forall2_perm_l _ _ _ Hp l Hf) as (l' & Hl' & Hperm).
  exists l'. split; [now apply mapM_Some_2 |]. split; [now symmetry | exact Hl'].
Qed.

(** X13. The "stack" operation without sorting, on two or more distinct
    selected objects among which the active one: it finishes, the active
    object is not moved and its box is the base of the column, and the other
    selected objects are moved once each, in selection order, by the
    translations of the column. *)
Theorem stacker_execute_active_base :
  forall (O : Type) (HO : EqDecision O) (get_bounds : O -> option bounds)
         (np_argsort : list npfloat -> list nat)
         (objs : list O) (active : O) (ax : axis) (padding : Q)
         (centering : bool),
    (2 <= length objs)%nat -> NoDup objs -> active ∈ objs ->
    Forall (fun o => is_Some (get_bounds o)) objs ->
    exists first others moves,
      get_bounds active = Some first
      /\ mapM get_bounds (filter (fun o => o <> active) objs) = Some others
      /\ stacker_execute get_bounds np_argsort objs active ax padding
                         centering false = Some (Finished moves)
      /\ moves.*1 = filter (fun o => o <> active) objs
      /\ moves.*2 = stack_column first others ax padding centering
      /\ active ∉ moves.*1.
Proof.
  intros O HO get_bounds np_argsort objs active ax padding centering
         Hlen Hnd Hin Hall.
  assert (Hact : is_Some (get_bounds active)).
  { rewrite Forall_forall in Hall. now apply Hall. }
  destruct Hact as [first Hfirst].
  destruct (mapM_is_Some_2 get_bounds (filter (fun o => o <> active) objs))
    as [others Hothers].
  { apply Forall_forall. intros o Ho. apply list_elem_of_filter in Ho as [_ Ho].
    rewrite Forall_forall in Hall. now apply Hall. }
  pose proof (length_mapM _ _ _ Hothers) as Hlo.
  exists first, others,
    (zip (filter (fun o => o <> active) objs)
         (stack_column first others ax padding centering)).
  assert (Hcol : length (stack_column first others ax padding centering)
                 = length others).
  { clear. revert first. induction others as [|b rest IH]; intros first; simpl;
      [reflexivity | now rewrite IH]. }
  split; [exact Hfirst |]. split; [exact Hothers |]. split.
  - unfold stacker_execute.
    destruct (length objs <? 2)%nat eqn:E; [apply Nat.ltb_lt in E; lia |].
    unfold stacker_setup, active_first.
    rewrite (filter_eq_singleton objs active Hnd Hin). simpl.
    rewrite Hfirst. simpl. rewrite Hothers. reflexivity.
  - split; [apply fst_zip; lia |]. split; [apply snd_zip; lia |].
    rewrite fst_zip by lia. intros Hm.
    apply list_elem_of_filter in Hm as [Hne _]. congruence.
Qed.

Lemma stacker_execute_active_base_witness :
  exists first others moves,
    area_boxes !! 2%nat = Some first
    /\ mapM (fun i => area_boxes !! i)
            (filter (fun o => o <> 2%nat) [0; 1; 2; 3]%nat) = Some others
    /\ stacker_execute (fun i => area_boxes !! i) quicksort_argsort
                       [0; 1; 2; 3]%nat 2%nat Ax2 1 true false
       = Some (Finished moves)
    /\ moves.*1 = filter (fun o => o <> 2%nat) [0; 1; 2; 3]%nat
    /\ moves.*2 = stack_column first others Ax2 1 true
    /\ 2%nat ∉ moves.*1.
Proof.
  apply (stacker_execute_active_base nat _ (fun i => area_boxes !! i)
           quicksort_argsort [0; 1; 2; 3]%nat 2%nat Ax2 1 true).
  - simpl. lia.
  - apply (bool_decide_unpack _). vm_compute. exact I.
  - apply (bool_decide_unpack _). vm_compute. exact I.
  - repeat constructor; eexists; reflexivity.
Defined.

Lemma stack_column_length first all_bounds ax padding centering :
  length (stack_column first all_bounds ax padding centering)
  = length all_bounds.
Proof.
  revert first. induction all_bounds as [|b rest IH]; intros first; simpl;
    [reflexivity | now rewrite IH].
Qed.

(** X14. The "stack" operation with sorting, on two or more selected
    objects, when [np.argsort] returns a permutation of the indices: it
    finishes and moves every selected object exactly once (the lowest one
    included), in the reverse of the order [argsort_by_area] returns; the
    boxes of the moved objects are the selected boxes in that order, and the
    column is built on the box [get_base] returns among them. *)
Theorem stacker_execute_sorted :
  forall (O : Type) (HO : EqDecision O) (get_bounds : O -> option bounds)
         (np_argsort : list npfloat -> list nat)
         (objs : list O) (active : O) (ax : axis) (padding : Q)
         (centering : bool) (all_bounds : list bounds),
    (2 <= length objs)%nat ->
    mapM get_bounds objs = Some all_bounds ->
    argsort_by_area np_argsort all_bounds ax ≡ₚ seq 0 (length all_bounds) ->
    exists first sorted_bounds moves,
      stacker_execute get_bounds np_argsort objs active ax padding
                      centering true = Some (Finished moves)
      /\ np_take objs (reverse (argsort_by_area np_argsort all_bounds ax))
         = Some moves.*1
      /\ moves.*1 ≡ₚ objs
      /\ mapM get_bounds moves.*1 = Some sorted_bounds
      /\ np_take all_bounds (reverse (argsort_by_area np_argsort all_bounds ax))
         = Some sorted_bounds
      /\ sorted_bounds ≡ₚ all_bounds
      /\ get_base sorted_bounds ax = Some first
      /\ moves.*2 = stack_column first sorted_bounds ax padding centering.
Proof.
  intros O HO get_bounds np_argsort objs active ax padding centering
         all_bounds Hlen Hall Hp.
  pose proof (length_mapM _ _ _ Hall) as Hn.
  pose proof (mapM_Some_1 _ _ _ Hall) as Hgb.
  set (idxs := reverse (argsort_by_area np_argsort all_bounds ax)).
  assert (Hpi : idxs ≡ₚ seq 0 (length all_bounds)).
  { unfold idxs. rewrite reverse_Permutation. exact Hp. }
  destruct (np_take_perm all_bounds idxs Hpi) as (sb & Hsb & Hsbp & Hsbf).
  assert (Hpo : idxs ≡ₚ seq 0 (length objs)) by now rewrite Hn.
  destruct (np_take_perm objs idxs Hpo) as (so & Hso & Hsop & Hsof).
  assert (Hsne : sb <> []).
  { intros ->. apply Permutation_length in Hsbp. simpl in Hsbp. lia. }
  destruct (get_base_min sb ax Hsne) as (k & first & Hfirst & _).
  assert (Hlso : length so = length sb).
  { apply Permutation_length in Hsbp, Hsop. lia. }
  exists first, sb, (zip so (stack_column first sb ax padding centering)).
  pose proof (stack_column_length first sb ax padding centering) as Hcol.
  rewrite fst_zip by lia. rewrite snd_zip by lia.
  split; [| split; [exact Hso | split; [exact Hsop | split;
    [| split; [exact Hsb | split; [exact Hsbp | split;
      [exact Hfirst | reflexivity]]]]]]].
  - unfold stacker_execute.
    destruct (length objs <? 2)%nat eqn:E; [apply Nat.ltb_lt in E; lia |].
    unfold stacker_setup. rewrite Hall. simpl. fold idxs.
    rewrite Hsb. simpl. rewrite Hso. simpl. rewrite Hfirst. reflexivity.
  - apply mapM_Some_2. apply Forall2_same_length_lookup. split; [exact Hlso |].
    intros p o b Ho Hb.
    destruct (Forall2_lookup_r _ _ _ _ _ Hsof Ho) as (i & Hi & Hoi).
    pose proof (Forall2_lookup_lr _ _ _ _ _ _ Hsbf Hi Hb) as Hbi.
    exact (Forall2_lookup_lr _ _ _ _ _ _ Hgb Hoi Hbi).
Qed.

Lemma stacker_execute_sorted_witness :
  exists first sorted_bounds moves,
    stacker_execute (fun i => area_boxes !! i) stable_argsort
                    [0; 1; 2; 3]%nat 2%nat Ax2 1 true true
    = Some (Finished moves)
    /\ np_take [0; 1; 2; 3]%nat
               (reverse (argsort_by_area stable_argsort area_boxes Ax2))
       = Some moves.*1
    /\ moves.*1 ≡ₚ [0; 1; 2; 3]%nat
    /\ mapM (fun i => area_boxes !! i) moves.*1 = Some sorted_bounds
    /\ np_take area_boxes
               (reverse (argsort_by_area stable_argsort area_boxes Ax2))
       = Some sorted_bounds
    /\ sorted_bounds ≡ₚ area_boxes
    /\ get_base sorted_bounds Ax2 = Some first
    /\ moves.*2 = stack_column first sorted_bounds Ax2 1 true.
Proof.
  apply (stacker_execute_sorted nat _ (fun i => area_boxes !! i)
           stable_argsort [0; 1; 2; 3]%nat 2%nat Ax2 1 true area_boxes).
  - simpl. lia.
  - reflexivity.
  - apply (stable_argsort_spec (area_keys area_boxes Ax2)).
Defined.

Lemma drop_down_state_inv np_argsort (bs : list bounds) ax padding :
  bs <> [] ->
  is_argsort (height_keys bs ax) (np_argsort (height_keys bs ax)) ->
  exists st i0,
    drop_down_state np_argsort bs ax padding = Some st
    /\ head (argsort_by_height np_argsort bs ax) = Some i0
    /\ loop_inv bs ax [i0] st.
Proof.
  intros Hne H.
  assert (Hn : length (height_keys bs ax) = length bs)
    by (unfold height_keys; apply length_map).
  pose proof (is_argsort_NoDup _ _ H) as Hnd.
  pose proof (is_argsort_Forall_range _ _ H) as Hr. rewrite Hn in Hr.
  pose proof (is_argsort_length _ _ H) as Hl. rewrite Hn in Hl.
  fold (argsort_by_height np_argsort bs ax) in Hnd, Hr, Hl.
  unfold drop_down_state.
  destruct (argsort_by_height np_argsort bs ax) as [|i0 todo] eqn:E.
  { destruct bs; [congruence | discriminate]. }
  apply Forall_cons in Hr as [Hi0 Hr].
  destruct (lookup_lt_is_Some_2 bs i0 Hi0) as [b0 Hb0].
  destruct (drop_loop_preserves bs ax padding (make_flat b0) i0 todo [i0]
              (initial_state bs))
    as (st & Hloop & Hinv); try assumption.
  { now repeat constructor. }
  { apply initial_state_inv. }
  exists st, i0. split; [| split; [reflexivity | exact Hinv]].
  simpl. rewrite Hb0. simpl. exact Hloop.
Qed.

(** X15. The "drop down" operation on two or more selected objects, when
    [np.argsort] keeps its promise: it finishes and moves every selected
    object exactly once, in selection order, each by the translation
    [drop_down] returns for its box. *)
Theorem drop_down_execute_moves_all :
  forall (O : Type) (HO : EqDecision O) (get_bounds : O -> option bounds)
         (np_argsort : list npfloat -> list nat)
         (objs : list O) (ax : axis) (padding : Q) (bs : list bounds),
    (2 <= length objs)%nat ->
    mapM get_bounds objs = Some bs ->
    is_argsort (height_keys bs ax) (np_argsort (height_keys bs ax)) ->
    exists deltas,
      drop_down np_argsort bs ax padding = Some deltas
      /\ drop_down_execute get_bounds np_argsort objs ax padding
         = Some (Finished (zip objs deltas))
      /\ (zip objs deltas).*1 = objs
      /\ (zip objs deltas).*2 = deltas.
Proof.
  intros O HO get_bounds np_argsort objs ax padding bs Hlen Hbs H.
  pose proof (length_mapM _ _ _ Hbs) as Hn.
  assert (Hne : bs <> []) by (intros ->; simpl in Hn; lia).
  destruct (drop_down_state_inv np_argsort bs ax padding Hne H)
    as (st & i0 & Hst & _ & (_ & Hlo & _)).
  exists (st_output st).
  assert (Hd : drop_down np_argsort bs ax padding = Some (st_output st)).
  { unfold drop_down. now rewrite Hst. }
  split; [exact Hd |]. split.
  - unfold drop_down_execute.
    destruct (length objs <? 2)%nat eqn:E; [apply Nat.ltb_lt in E; lia |].
    rewrite Hbs. simpl. rewrite Hd. reflexivity.
  - split; [apply fst_zip | apply snd_zip]; unfold vec, bounds in *; lia.
Qed.

Lemma drop_down_execute_moves_all_witness :
  exists deltas,
    drop_down quicksort_argsort unordered_boxes Ax2 1 = Some deltas
    /\ drop_down_execute (fun i => unordered_boxes !! i) quicksort_argsort
                         [0; 1; 2]%nat Ax2 1
       = Some (Finished (zip [0; 1; 2]%nat deltas))
    /\ (zip [0; 1; 2]%nat deltas).*1 = [0; 1; 2]%nat
    /\ (zip [0; 1; 2]%nat deltas).*2 = deltas.
Proof.
  apply (drop_down_execute_moves_all nat _ (fun i => unordered_boxes !! i)
           quicksort_argsort [0; 1; 2]%nat Ax2 1 unordered_boxes).
  - simpl. lia.
  - reflexivity.
  - apply argsort_okb_sound. reflexivity.
Defined.

(** ** [get_bounds] *)

Lemma np_minimum_spec (x y : Q) :
  (np_minimum x y <= x /\ np_minimum x y <= y)%Q
  /\ (np_minimum x y = x \/ np_minimum x y = y).
Proof.
  unfold np_minimum, Qltb. destruct (Qle_bool y x) eqn:E; simpl.
  - apply Qle_bool_iff in E. split; [split; lra | now right].
  - assert (~ (y <= x)%Q) by (rewrite <- Qle_bool_iff; congruence).
    split; [split; lra | now left].
Qed.

Lemma np_maximum_spec (x y : Q) :
  (x <= np_maximum x y /\ y <= np_maximum x y)%Q
  /\ (np_maximum x y = x \/ np_maximum x y = y).
Proof.
  unfold np_maximum, Qltb. destruct (Qle_bool x y) eqn:E; simpl.
  - apply Qle_bool_iff in E. split; [split; lra | now right].
  - assert (~ (x <= y)%Q) by (rewrite <- Qle_bool_iff; congruence).
    split; [split; lra | now left].
Qed.

Lemma foldl_np_minimum (l : list Q) (a : Q) :
  (foldl np_minimum a l <= a)%Q
  /\ (forall x, x ∈ l -> (foldl np_minimum a l <= x)%Q)
  /\ (foldl np_minimum a l = a \/ foldl np_minimum a l ∈ l).
Proof.
  revert a. induction l as [|y l IH]; intros a; simpl.
  - split; [lra |]. split; [| now left].
    intros x Hx. now apply elem_of_nil in Hx.
  - destruct (IH (np_minimum a y)) as (Ha & Hall & Hin).
    destruct (np_minimum_spec a y) as [[Hl Hr] Hc].
    split; [lra |]. split.
    + intros x Hx. apply elem_of_cons in Hx as [-> | Hx]; [lra | now apply Hall].
    + destruct Hin as [Hin | Hin]; [| right; now right].
      rewrite Hin. destruct Hc as [-> | ->]; [now left | right; left].
Qed.

Lemma foldl_np_maximum (l : list Q) (a : Q) :
  (a <= foldl np_maximum a l)%Q
  /\ (forall x, x ∈ l -> (x <= foldl np_maximum a l)%Q)
  /\ (foldl np_maximum a l = a \/ foldl np_maximum a l ∈ l).
Proof.
  revert a. induction l as [|y l IH]; intros a; simpl.
  - split; [lra |]. split; [| now left].
    intros x Hx. now apply elem_of_nil in Hx.
  - destruct (IH (np_maximum a y)) as (Ha & Hall & Hin).
    destruct (np_maximum_spec a y) as [[Hl Hr] Hc].
    split; [lra |]. split.
    + intros x Hx. apply elem_of_cons in Hx as [-> | Hx]; [lra | now apply Hall].
    + destruct Hin as [Hin | Hin]; [| right; now right].
      rewrite Hin. destruct Hc as [-> | ->]; [now left | right; left].
Qed.

(** On a non-empty list of corners the range on an axis goes from the
    smallest to the largest coordinate, both reached by a corner. *)
Lemma corner_range_spec (corners : list vec) (ax : axis) :
  corners <> [] ->
  exists p, corner_range corners ax = Some p
    /\ (forall v, v ∈ corners -> (lo p <= get ax v /\ get ax v <= hi p)%Q)
    /\ (exists v, v ∈ corners /\ get ax v = lo p)
    /\ (exists v, v ∈ corners /\ get ax v = hi p).
Proof.
  intros Hne. destruct corners as [|c cs]; [congruence |].
  unfold corner_range. simpl.
  destruct (foldl_np_minimum (map (get ax) cs) (get ax c)) as (Hm1 & Hm2 & Hm3).
  destruct (foldl_np_maximum (map (get ax) cs) (get ax c)) as (HM1 & HM2 & HM3).
  eexists. split; [reflexivity |]. unfold lo, hi; simpl.
  split; [| split].
  - intros v Hv. apply elem_of_cons in Hv as [-> | Hv]; [split; assumption |].
    assert (Hg : get ax v ∈ map (get ax) cs).
    { apply list_elem_of_fmap. now exists v. }
    split; [now apply Hm2 | now apply HM2].
  - destruct Hm3 as [E | Hin].
    + exists c. split; [left | now rewrite E].
    + apply list_elem_of_fmap in Hin as (v & E & Hv).
      exists v. split; [now right | now rewrite E].
  - destruct HM3 as [E | Hin].
    + exists c. split; [left | now rewrite E].
    + apply list_elem_of_fmap in Hin as (v & E & Hv).
      exists v. split; [now right | now rewrite E].
Qed.

Lemma corner_bounds_spec (corners : list vec) :
  corners <> [] ->
  exists b, corner_bounds corners = Some b
    /\ (forall ax v, v ∈ corners ->
          (lo (get ax b) <= get ax v /\ get ax v <= hi (get ax b))%Q)
    /\ (forall ax, exists v, v ∈ corners /\ get ax v = lo (get ax b))
    /\ (forall ax, exists v, v ∈ corners /\ get ax v = hi (get ax b)).
Proof.
  intros Hne.
  destruct (corner_range_spec corners Ax0 Hne) as (x & Hx & Hx1 & Hx2 & Hx3).
  destruct (corner_range_spec corners Ax1 Hne) as (y & Hy & Hy1 & Hy2 & Hy3).
  destruct (corner_range_spec corners Ax2 Hne) as (z & Hz & Hz1 & Hz2 & Hz3).
  exists (Arr3 x y z). unfold corner_bounds. rewrite Hx, Hy, Hz.
  split; [reflexivity |].
  split; [| split]; intros []; simpl; auto.
Qed.

Lemma get_merge_bounds (b other : bounds) (ax : axis) :
  get ax (merge_bounds b other)
  = (np_minimum (lo (get ax b)) (lo (get ax other)),
     np_maximum (hi (get ax b)) (hi (get ax other))).
Proof. now destruct ax. Qed.

(** Merging the smallest boxes of two families gives the smallest box of
    their union. *)
Lemma hull_merge {Obj} (world_corners : Obj -> list vec)
    (F G H : Obj -> Prop) (b other : bounds) :
  (forall o, H o <-> F o \/ G o) ->
  hull world_corners F b -> hull world_corners G other ->
  hull world_corners H (merge_bounds b other).
Proof.
  intros HH (Fin & Flo & Fhi) (Gin & Glo & Ghi).
  split; [| split].
  - intros o v ax Ho Hv. rewrite get_merge_bounds. unfold lo at 1, hi at 2.
    simpl.
    destruct (np_minimum_spec (lo (get ax b)) (lo (get ax other)))
      as [[? ?] _].
    destruct (np_maximum_spec (hi (get ax b)) (hi (get ax other)))
      as [[? ?] _].
    apply HH in Ho as [Ho | Ho].
    + destruct (Fin o v ax Ho Hv). split; lra.
    + destruct (Gin o v ax Ho Hv). split; lra.
  - intros ax. rewrite get_merge_bounds. unfold lo at 1. simpl.
    destruct (np_minimum_spec (lo (get ax b)) (lo (get ax other)))
      as [_ [-> | ->]].
    + destruct (Flo ax) as (o & v & Ho & Hv & E).
      exists o, v. split; [apply HH; now left | now split].
    + destruct (Glo ax) as (o & v & Ho & Hv & E).
      exists o, v. split; [apply HH; now right | now split].
  - intros ax. rewrite get_merge_bounds. unfold hi at 1. simpl.
    destruct (np_maximum_spec (hi (get ax b)) (hi (get ax other)))
      as [_ [-> | ->]].
    + destruct (Fhi ax) as (o & v & Ho & Hv & E).
      exists o, v. split; [apply HH; now left | now split].
    + destruct (Ghi ax) as (o & v & Ho & Hv & E).
      exists o, v. split; [apply HH; now right | now split].
Qed.

(** The loop over the children, when every recursive call returns the
    smallest box of the child and its own descendants. *)
Lemma get_bounds_loop {Obj} (world_corners : Obj -> list vec)
    (children_recursive : Obj -> list Obj) (rec : Obj -> option bounds)
    (children : list Obj) :
  (forall c, c ∈ children ->
     exists bc, rec c = Some bc
       /\ hull world_corners (fun o => o ∈ c :: children_recursive c) bc) ->
  forall (F : Obj -> Prop) (b : bounds),
    hull world_corners F b ->
    exists b',
      foldl (fun acc child =>
               bounds ← acc; other ← rec child;
               Some (merge_bounds bounds other))
            (Some b) children = Some b'
      /\ hull world_corners
           (fun o => F o \/ exists c, c ∈ children
                                      /\ o ∈ c :: children_recursive c) b'.
Proof.
  induction children as [|c children IH]; intros Hrec F b Hb.
  - exists b. split; [reflexivity |].
    destruct Hb as (Hin & Hlo & Hhi). split; [| split].
    + intros o v ax [Ho | (c & Hc & _)]; [now apply Hin |].
      now apply elem_of_nil in Hc.
    + intros ax. destruct (Hlo ax) as (o & v & ? & ? & ?).
      exists o, v. split; [now left | now split].
    + intros ax. destruct (Hhi ax) as (o & v & ? & ? & ?).
      exists o, v. split; [now left | now split].
  - destruct (Hrec c) as (bc & Hbc & Hhull); [left |].
    simpl. rewrite Hbc. simpl.
    destruct (IH (fun c' Hc' => Hrec c' (list_elem_of_further _ _ _ Hc'))
                 (fun o => F o \/ o ∈ c :: children_recursive c)
                 (merge_bounds b bc))
      as (b' & Hb' & Hhull').
    { eapply hull_merge; [| exact Hb | exact Hhull]. intros o. reflexivity. }
    exists b'. split; [exact Hb' |].
    destruct Hhull' as (Hin & Hlo & Hhi).
    assert (Hiff : forall o,
      (F o \/ o ∈ c :: children_recursive c)
       \/ (exists c', c' ∈ children /\ o ∈ c' :: children_recursive c')
      <-> F o \/ exists c', c' ∈ c :: children
                            /\ o ∈ c' :: children_recursive c').
    { intros o. split.
      - intros [[Ho | Ho] | (c' & Hc' & Ho)].
        + now left.
        + right. exists c. split; [left | exact Ho].
        + right. exists c'. split; [now right | exact Ho].
      - intros [Ho | (c' & Hc' & Ho)]; [left; now left |].
        apply elem_of_cons in Hc' as [-> | Hc'].
        + left. now right.
        + right. now exists c'. }
    split; [| split].
    + intros o v ax Ho. apply Hin. now apply Hiff.
    + intros ax. destruct (Hlo ax) as (o & v & Ho & Hv & E).
      exists o, v. split; [now apply Hiff | now split].
    + intros ax. destruct (Hhi ax) as (o & v & Ho & Hv & E).
      exists o, v. split; [now apply Hiff | now split].
Qed.

(** X16. [get_bounds] returns the union box of an object and its
    descendants: when every object has at least one bounding-box corner and
    the hierarchy is a finite tree whose [children_recursive] lists all the
    descendants, the call returns (given enough depth) the smallest box
    around the world corners of the object and of everything in its
    [children_recursive]: it contains them all, and each of its six bounds
    is the coordinate of one of these corners. *)
Theorem get_bounds_is_union_box :
  forall (Obj : Type) (world_corners : Obj -> list vec)
         (children_recursive : Obj -> list Obj) (depth : Obj -> nat)
         (fuel : nat) (obj : Obj),
    (forall o, world_corners o <> []) ->
    (forall o c, c ∈ children_recursive o -> (depth c < depth o)%nat) ->
    (forall o c d, c ∈ children_recursive o -> d ∈ children_recursive c ->
                   d ∈ children_recursive o) ->
    (depth obj < fuel)%nat ->
    exists b,
      get_bounds world_corners children_recursive fuel obj = Some b
      /\ hull world_corners (fun o => o ∈ obj :: children_recursive obj) b
      /\ valid_bounds b.
Proof.
  intros Obj world_corners children_recursive depth fuel obj Hne Hdepth Htrans.
  assert (Hmain : forall fuel obj, (depth obj < fuel)%nat ->
    exists b, get_bounds world_corners children_recursive fuel obj = Some b
      /\ hull world_corners (fun o => o ∈ obj :: children_recursive obj) b).
  { clear fuel obj. induction fuel as [|fuel IH]; intros obj Hfuel; [lia |].
    destruct (corner_bounds_spec (world_corners obj) (Hne obj))
      as (b0 & Hb0 & Hin0 & Hlo0 & Hhi0).
    simpl. rewrite Hb0. simpl.
    destruct (get_bounds_loop world_corners children_recursive
                (get_bounds world_corners children_recursive fuel)
                (children_recursive obj)
                (fun c Hc => IH c ltac:(specialize (Hdepth obj c Hc); lia))
                (fun o => o = obj) b0)
      as (b & Hb & Hin & Hlo & Hhi).
    { split; [| split].
      - intros o v ax -> Hv. now apply Hin0.
      - intros ax. destruct (Hlo0 ax) as (v & Hv & E).
        exists obj, v. split; [reflexivity |]. split; [exact Hv | now rewrite E].
      - intros ax. destruct (Hhi0 ax) as (v & Hv & E).
        exists obj, v. split; [reflexivity |]. split; [exact Hv | now rewrite E]. }
    exists b. split; [exact Hb |].
    assert (Hiff : forall o,
      o ∈ obj :: children_recursive obj
      <-> o = obj \/ exists c, c ∈ children_recursive obj
                               /\ o ∈ c :: children_recursive c).
    { intros o. split.
      - intros Ho. apply elem_of_cons in Ho as [-> | Ho]; [now left |].
        right. exists o. split; [exact Ho | left].
      - intros [-> | (c & Hc & Ho)]; [left |].
        right. apply elem_of_cons in Ho as [-> | Ho]; [exact Hc |].
        now apply (Htrans obj c o). }
    split; [| split].
    - intros o v ax Ho. apply Hin. now apply Hiff.
    - intros ax. destruct (Hlo ax) as (o & v & Ho & Hv & E).
      exists o, v. split; [now apply Hiff | now split].
    - intros ax. destruct (Hhi ax) as (o & v & Ho & Hv & E).
      exists o, v. split; [now apply Hiff | now split]. }
  intros Hfuel. destruct (Hmain fuel obj Hfuel) as (b & Hb & Hhull).
  exists b. split; [exact Hb |]. split; [exact Hhull |].
  destruct Hhull as (Hin & Hlo & _).
  assert (Hax : forall ax, (lo (get ax b) <= hi (get ax b))%Q).
  { intros ax. destruct (Hlo ax) as (o & v & Ho & Hv & E).
    destruct (Hin o v ax Ho Hv). lra. }
  unfold valid_bounds. split; [apply (Hax Ax0) |].
  split; [apply (Hax Ax1) | apply (Hax Ax2)].
Qed.

(** The box of the parent of the small scene covers its child and its
    grandchild. *)
Example get_bounds_scene :
  get_bounds scene_corners scene_children 3 0%nat
  = Some (box (-4) 3 (-1) 2 0 9).
Proof. reflexivity. Qed.

Lemma get_bounds_is_union_box_witness :
  exists b,
    get_bounds scene_corners scene_children 3 0%nat = Some b
    /\ hull scene_corners (fun o => o ∈ 0%nat :: scene_children 0%nat) b
    /\ valid_bounds b.
Proof.
  apply (get_bounds_is_union_box nat scene_corners scene_children scene_depth
                                 3 0%nat).
  - intros [|[|[|o]]]; discriminate.
  - intros [|[|o]] c Hc; simpl in Hc.
    + apply elem_of_cons in Hc as [-> | Hc]; [unfold scene_depth; simpl; lia |].
      apply list_elem_of_singleton in Hc as ->. unfold scene_depth. simpl. lia.
    + apply list_elem_of_singleton in Hc as ->. unfold scene_depth. simpl. lia.
    + now apply elem_of_nil in Hc.
  - intros [|[|o]] c d Hc Hd; simpl in Hc.
    + apply elem_of_cons in Hc as [-> | Hc].
      * simpl in Hd. simpl. now right.
      * apply list_elem_of_singleton in Hc as ->. simpl in Hd.
        now apply elem_of_nil in Hd.
    + apply list_elem_of_singleton in Hc as ->. simpl in Hd.
      now apply elem_of_nil in Hd.
    + now apply elem_of_nil in Hc.
  - unfold scene_depth. simpl. lia.
Defined.

